(** * LOGAN agent chat: the message-delivery core

    A shallow embedding of [scripts/agent-chat-poll.py] and
    [scripts/agent-chat-sse.py]: the polling cursor loop, the server-sent
    event frame loop and the reply logic both scripts share.

    Conventions of the embedding.
    - A Python [str] is a list of Unicode code points ([N]).
    - A value obtained from [json.loads] is a [json] term; dictionaries are
      association lists looked up from the left.  A float is kept as the
      number its literal denotes, or as one of the constants [Infinity],
      [-Infinity] and [NaN].
    - Python exceptions that no handler of the scripts catches are values of
      [exn]; a computation that can raise returns [exc A].
    - Calls that leave the process (HTTP requests, [time.sleep], the [user]
      console line) are recorded, in order, as a list of [io] events.  The
      other console lines are not recorded.  [KeyboardInterrupt] is not
      modelled.
    - The remote is a parameter: it answers the status query, each fetch
      and each post, the post numbered by how many were made before it. *)

From Stdlib Require Import List ZArith NArith QArith Qabs Lia Bool String Ascii.
Import ListNotations.

Close Scope Q_scope.

Set Implicit Arguments.
Set Warnings "-register-all".

(** ** Python strings *)

Module Py.

Definition char := N.
Definition str := list char.

(** A Python string literal. *)
Definition py (lit : string) : str :=
  List.map N_of_ascii (list_ascii_of_string lit).

Definition NL : char := 10%N.

Fixpoint str_eqb (a b : str) : bool :=
  match a, b with
  | [], [] => true
  | x :: a', y :: b' => N.eqb x y && str_eqb a' b'
  | _, _ => false
  end.

(** [s.startswith(prefix)] *)
Fixpoint startswith (s prefix : str) : bool :=
  match prefix, s with
  | [], _ => true
  | p :: prefix', c :: s' => N.eqb c p && startswith s' prefix'
  | _ :: _, [] => false
  end.

(** [s.endswith(suffix)] *)
Definition endswith (s suffix : str) : bool :=
  startswith (rev s) (rev suffix).

(** [needle in hay] *)
Fixpoint str_in (needle hay : str) : bool :=
  startswith hay needle ||
  match hay with
  | [] => false
  | _ :: hay' => str_in needle hay'
  end.

(** [str.isspace] on one code point. *)
Definition isspace (c : char) : bool :=
  ((9 <=? c) && (c <=? 13) || (28 <=? c) && (c <=? 32)
   || (c =? 133) || (c =? 160) || (c =? 5760)
   || (8192 <=? c) && (c <=? 8202)
   || (c =? 8232) || (c =? 8233) || (c =? 8239) || (c =? 8287)
   || (c =? 12288))%N.

Fixpoint lstrip (s : str) : str :=
  match s with
  | [] => []
  | c :: s' => if isspace c then lstrip s' else s
  end.

Definition rstrip (s : str) : str := rev (lstrip (rev s)).

(** [s.strip()] *)
Definition strip (s : str) : str := rstrip (lstrip s).

(** [s.split(sep)] for a one-character separator. *)
Fixpoint split (sep : char) (s : str) : list str :=
  match s with
  | [] => [[]]
  | c :: s' =>
      if N.eqb c sep then [] :: split sep s'
      else match split sep s' with
           | [] => [[c]]
           | l :: ls => (c :: l) :: ls
           end
  end.

(** [sep.join(parts)] for a one-character separator. *)
Fixpoint join (sep : char) (parts : list str) : str :=
  match parts with
  | [] => []
  | [l] => l
  | l :: rest => l ++ sep :: join sep rest
  end.

(** [str.lower] on the ASCII range; other code points are kept as they
    are.  Python lowers some of them too, but none to a letter of
    [goodbye], which is all the scripts look for in a lowered text. *)
Definition lower_char (c : char) : char :=
  if ((65 <=? c) && (c <=? 90))%N then (c + 32)%N else c.

Definition lower (s : str) : str := List.map lower_char s.

(** ** Values decoded from JSON *)

(** A Python float as the scripts can tell it: the number a literal
    denotes, before it is rounded to a double, or a constant. *)
Inductive pyfloat : Type :=
| Finite (q : Q)
| Infinity (negative : bool)
| NaN.

(** The literals that are rounded to zero: those not above half the
    smallest positive double, [2 ** -1075]. *)
Definition rounds_to_zero (q : Q) : bool :=
  Qle_bool (Qabs q) (1 # (2 ^ 1075)%positive).

Inductive json : Type :=
| JNull
| JBool (b : bool)
| JInt (z : Z)
| JFloat (x : pyfloat)
| JStr (s : str)
| JList (items : list json)
| JDict (fields : list (str * json)).

Fixpoint lookup (k : str) (fields : list (str * json)) : option json :=
  match fields with
  | [] => None
  | (k', v) :: rest => if str_eqb k' k then Some v else lookup k rest
  end.

(** [d[k] = v] on a dictionary: an existing key keeps its place. *)
Fixpoint dict_set (k : str) (v : json) (fields : list (str * json))
  : list (str * json) :=
  match fields with
  | [] => [(k, v)]
  | (k', v') :: rest =>
      if str_eqb k' k then (k', v) :: rest else (k', v') :: dict_set k v rest
  end.

(** Truth value of an object, as [not x] and [if x] see it. *)
Definition truthy (v : json) : bool :=
  match v with
  | JNull => false
  | JBool b => b
  | JInt z => negb (Z.eqb z 0)
  | JFloat (Finite q) => negb (rounds_to_zero q)
  | JFloat _ => true
  | JStr s => match s with [] => false | _ => true end
  | JList l => match l with [] => false | _ => true end
  | JDict d => match d with [] => false | _ => true end
  end.

(** ** Exceptions *)

Inductive exn : Type :=
| KeyError | AttributeError | TypeError | ValueError | RecursionError.

Inductive exc (A : Type) : Type :=
| Ok (a : A)
| Raise (e : exn).

Arguments Ok {A} a.
Arguments Raise {A} e.

Definition bind {A B} (m : exc A) (f : A -> exc B) : exc B :=
  match m with
  | Ok a => f a
  | Raise e => Raise e
  end.

(** [d.get(k, default)]: only dictionaries have the method. *)
Definition get (d : json) (k : str) (default : json) : exc json :=
  match d with
  | JDict fields =>
      Ok match lookup k fields with Some v => v | None => default end
  | _ => Raise AttributeError
  end.

(** [d[k]] with a string key. *)
Definition subscript (d : json) (k : str) : exc json :=
  match d with
  | JDict fields =>
      match lookup k fields with Some v => Ok v | None => Raise KeyError end
  | _ => Raise TypeError
  end.

(** [v == lit] for a string literal. *)
Definition eq_str (v : json) (lit : str) : bool :=
  match v with
  | JStr s => str_eqb s lit
  | _ => false
  end.

(** What [for m in v] iterates over: the items of a list, the keys of a
    dictionary, the characters of a string. *)
Definition iterate (v : json) : exc (list json) :=
  match v with
  | JList items => Ok items
  | JDict fields => Ok (List.map (fun kv => JStr (fst kv)) fields)
  | JStr s => Ok (List.map (fun c => JStr [c]) s)
  | _ => Raise TypeError
  end.

End Py.

Import Py.

Declare Scope exc_scope.
Delimit Scope exc_scope with exc.
Notation "x <- m ;; k" := (bind m (fun x => k))
  (at level 61, m at next level, right associativity) : exc_scope.


(** ** The HTTP boundary

    [api_get] and [api_post] wrap the whole request in
    [try/except Exception]: whatever goes wrong (connection, timeout,
    decoding of the body) becomes the dictionary
    [{"success": False, "error": str(e)}]; otherwise the decoded body is
    returned as it is, whatever JSON value it is.  The environment therefore
    answers a request with a [reply]. *)

Module Transport.

Inductive reply : Type :=
| Failed (error : str)
| Answer (body : json).

Definition api_get (r : reply) : json :=
  match r with
  | Failed error =>
      JDict [(py "success", JBool false); (py "error", JStr error)]
  | Answer body => body
  end.

Definition api_post (r : reply) : json :=
  match r with
  | Failed error =>
      JDict [(py "success", JBool false); (py "error", JStr error)]
  | Answer body => body
  end.

(** What [register] and [send_message] do with the answer to their post:
    [result.get("success")], outside any handler, then [return result]. *)
Definition posted (answer : reply) : exc json :=
  (let result := api_post answer in
   _ <- get result (py "success") JNull;;
   Ok result)%exc.

(** The answer to a post is an object, as the transport is meant to
    return. *)
Definition accepted (answer : reply) : bool :=
  match api_post answer with
  | JDict _ => true
  | _ => false
  end.

(** What the process does to the outside, in order. *)
Inductive io : Type :=
| Sleep (seconds : Z)                       (* time.sleep *)
| GetStatus                                 (* GET /api/status *)
| GetMessages (since : json)                (* GET /api/messages?since= *)
| GetEvents (name : str)                    (* GET /api/events?name= *)
| PostRegister (name : str)                 (* POST /api/agent-register *)
| PostMessage (text : str) (name : option str)  (* POST /api/agent-message *)
| Dispatch (msg : json).
(** [Dispatch msg]: the loop hands the user message [msg] to the reply
    logic; the scripts print the [user] console line at this point. *)

(** The number of posts in a trace: the number of the next post. *)
Fixpoint posts (tr : list io) : nat :=
  match tr with
  | [] => 0
  | PostRegister _ :: tr' => S (posts tr')
  | PostMessage _ _ :: tr' => S (posts tr')
  | _ :: tr' => posts tr'
  end.

(** How a piece of code ends. *)
Inductive outcome : Type :=
| Running               (* control goes on to the next statement *)
| Returned              (* [return] from [main] *)
| Exited (code : Z)     (* [sys.exit(code)] *)
| Crashed (e : exn).    (* an exception nothing catches *)

Definition FAREWELL : str := py "Goodbye! Disconnecting.".

(** The termination test both scripts apply to a lowered text:
    ["goodbye" in t or "bye" in t]. *)
Definition says_bye (lowered : str) : bool :=
  str_in (py "goodbye") lowered || str_in (py "bye") lowered.

(** [m] is [needle] up to the case of its ASCII letters, [needle] being
    in lower case: the match the specification calls case-insensitive. *)
Fixpoint matches_ignoring_case (m needle : str) : bool :=
  match m, needle with
  | [], [] => true
  | x :: m', y :: needle' =>
      (N.eqb x y || (N.leb 97 y && N.leb y 122 && N.eqb (x + 32) y))
      && matches_ignoring_case m' needle'
  | _, _ => false
  end.

(** [check_status]: the decision, without its console lines.  The success
    branch formats [status['filePath']] and [status['totalLines']]. *)
Definition check_status (answer : reply) : exc bool :=
  (let result := api_get answer in
   success <- get result (py "success") JNull;;
   if negb (truthy success) then Ok false else
   status <- subscript result (py "status");;
   filePath <- get status (py "filePath") JNull;;
   if negb (truthy filePath) then Ok false else
   _ <- subscript status (py "filePath");;
   _ <- subscript status (py "totalLines");;
   Ok true)%exc.

(** The readiness query failed in transport, or its answer carries a status
    whose [filePath] is absent or the empty string. *)
Definition not_ready (answer : reply) : Prop :=
  (exists error, answer = Failed error)
  \/ (exists fields status,
        answer = Answer (JDict fields)
        /\ lookup (py "status") fields = Some (JDict status)
        /\ (lookup (py "filePath") status = None
            \/ lookup (py "filePath") status = Some (JStr []))).

(** The messages handed to the reply logic, oldest first. *)
Fixpoint dispatched (tr : list io) : list json :=
  match tr with
  | [] => []
  | Dispatch msg :: tr' => msg :: dispatched tr'
  | _ :: tr' => dispatched tr'
  end.

(** The messages sent out, oldest first. *)
Fixpoint sent (tr : list io) : list str :=
  match tr with
  | [] => []
  | PostMessage text _ :: tr' => text :: sent tr'
  | _ :: tr' => sent tr'
  end.

(** The answer to the status query says that a file is open: it is a
    dictionary with a truthy [success], whose [status] is a dictionary with
    a truthy [filePath] and a [totalLines]. *)
Definition ready (answer : reply) : Prop :=
  exists fields success status filePath totalLines,
    api_get answer = JDict fields
    /\ lookup (py "success") fields = Some success
    /\ truthy success = true
    /\ lookup (py "status") fields = Some (JDict status)
    /\ lookup (py "filePath") status = Some filePath
    /\ truthy filePath = true
    /\ lookup (py "totalLines") status = Some totalLines.

(** *** Reading a trace *)

(** The events of the exchange with the user, as opposed to requests for
    input and waiting. *)
Definition is_reply_event (e : io) : bool :=
  match e with
  | Dispatch _ | PostMessage _ _ => true
  | _ => false
  end.

Definition talk (tr : list io) : list io := filter is_reply_event tr.

(** [msg["from"] == "user"] holds of [msg]. *)
Definition from_user (msg : json) : bool :=
  match subscript msg (py "from") with
  | Ok v => eq_str v (py "user")
  | Raise _ => false
  end.

(** The text that answers a user message. *)
Definition reply_text (msg : json) : str :=
  match subscript msg (py "text") with
  | Ok (JStr t) =>
      if says_bye (lower t) then FAREWELL else py "Received: " ++ t
  | _ => []
  end.

(** The shape of every exchange: user messages are dispatched one after
    the other and each is answered before the next, with an echo or, for
    the last one, with the farewell, after which the run ends with [stop].
    A run also ends where the text of a message is no string, the message
    unanswered, and where the answer to a post is no object, both with
    [AttributeError].  [who] is the name field of the posts. *)
Inductive conversation (who : option str) (stop : outcome)
  : list io -> outcome -> Prop :=
| conv_nil (o : outcome) :
    o <> stop -> conversation who stop [] o
| conv_lost (d : json) :
    from_user d = true ->
    conversation who stop [Dispatch d] (Crashed AttributeError)
| conv_refused (d : json) (t : str) :
    from_user d = true ->
    subscript d (py "text") = Ok (JStr t) ->
    conversation who stop
      [Dispatch d; PostMessage (reply_text d) who] (Crashed AttributeError)
| conv_bye (d : json) (t : str) :
    from_user d = true ->
    subscript d (py "text") = Ok (JStr t) ->
    says_bye (lower t) = true ->
    conversation who stop [Dispatch d; PostMessage FAREWELL who] stop
| conv_echo (d : json) (t : str) (tr : list io) (o : outcome) :
    from_user d = true ->
    subscript d (py "text") = Ok (JStr t) ->
    says_bye (lower t) = false ->
    conversation who stop tr o ->
    conversation who stop
      (Dispatch d :: PostMessage (py "Received: " ++ t) who :: tr) o.

(** An answer to a post as the transport is meant to give it. *)
Definition post_ok : reply := Answer (JDict [(py "success", JBool true)]).

End Transport.

Import Transport.

(** ** Polling mode: [scripts/agent-chat-poll.py] *)

Module Poll.

Definition POLL_INTERVAL : Z := 2.

(** The state a run of the script is in when it is observed: what it has
    done so far, the polling cursor [last_ts], and how it ended ([Running]:
    it has not). *)
Record run : Type := Run {
  trace : list io;
  cursor : json;
  ended : outcome
}.

Definition after (pre : list io) (r : run) : run :=
  Run (pre ++ trace r) (cursor r) (ended r).

(** [register(name)], given the remote's answer to the post. *)
Definition register (answer : reply) (name : str) : io * exc json :=
  (PostRegister name, posted answer).

(** [send_message(text, name)], given the remote's answer to the post. *)
Definition send_message (answer : reply) (text name : str) : io * exc json :=
  (PostMessage text (Some name), posted answer).

(** The list comprehension of [poll_messages]:
    [[m for m in items if m["from"] == "user"]]. *)
Fixpoint user_messages (items : list json) : exc (list json) :=
  match items with
  | [] => Ok []
  | m :: rest =>
      (from <- subscript m (py "from");;
       kept <- user_messages rest;;
       Ok (if eq_str from (py "user") then m :: kept else kept))%exc
  end.

(** [poll_messages(since)], given the remote's answer to the request. *)
Definition poll_messages (answer : reply) : exc (list json) :=
  (let result := api_get answer in
   success <- get result (py "success") JNull;;
   if negb (truthy success) then Ok [] else
   messages <- get result (py "messages") (JList []);;
   items <- iterate messages;;
   user_messages items)%exc.

(** The body of [for msg in new_msgs], lines 108 to 117; [p] is the number
    of the next post and [post p] the answer it will get. *)
Fixpoint for_msgs (post : nat -> reply) (name : str) (new_msgs : list json)
    (last_ts : json) (p : nat) : run :=
  match new_msgs with
  | [] => Run [] last_ts Running
  | msg :: rest =>
      match subscript msg (py "timestamp") with
      | Raise e => Run [] last_ts (Crashed e)
      | Ok ts =>
          (* last_ts = msg["timestamp"] *)
          match subscript msg (py "text") with
          | Raise e => Run [] ts (Crashed e)
          | Ok text =>
              (* msg["text"].lower(): only a str has the method *)
              match text with
              | JStr t =>
                  if says_bye (lower t) then
                    match send_message (post p) FAREWELL name with
                    | (ev, Ok _) => Run [Dispatch msg; ev] ts Returned
                    | (ev, Raise e) => Run [Dispatch msg; ev] ts (Crashed e)
                    end
                  else
                    match send_message (post p) (py "Received: " ++ t) name with
                    | (ev, Ok _) =>
                        after [Dispatch msg; ev]
                              (for_msgs post name rest ts (S p))
                    | (ev, Raise e) => Run [Dispatch msg; ev] ts (Crashed e)
                    end
              | _ => Run [Dispatch msg] ts (Crashed AttributeError)
              end
          end
      end
  end.

(** The environment of a run: the answer to the status query, the clock at
    start-up in milliseconds, the remote's answer to the fetch of each
    cycle, which may depend on the [since] value it is sent, and its answer
    to each post. *)
Record env : Type := Env {
  status_answer : reply;
  now : Z;
  fetch : nat -> json -> reply;
  post : nat -> reply
}.

(** [while True:], observed after at most [cycles] iterations; [k] numbers
    the iteration about to start and [p] the next post. *)
Fixpoint while_true (name : str) (fetch : nat -> json -> reply)
    (post : nat -> reply) (cycles k : nat) (last_ts : json) (p : nat) : run :=
  match cycles with
  | O => Run [] last_ts Running
  | S cycles' =>
      let request := [Sleep POLL_INTERVAL; GetMessages last_ts] in
      match poll_messages (fetch k last_ts) with
      | Raise e => Run request last_ts (Crashed e)
      | Ok new_msgs =>
          let batch := for_msgs post name new_msgs last_ts p in
          match ended batch with
          | Running =>
              after (request ++ trace batch)
                    (while_true name fetch post cycles' (S k) (cursor batch)
                       (p + posts (trace batch)))
          | _ => after request batch
          end
      end
  end.

(** [main()], observed after at most [cycles] iterations of its loop. *)
Definition main (name : str) (e : env) (cycles : nat) : run :=
  match check_status (status_answer e) with
  | Raise x => Run [GetStatus] JNull (Crashed x)
  | Ok false => Run [GetStatus] JNull (Exited 1)
  | Ok true =>
      let last_ts := JInt (now e) in
      match register (post e 0) name with
      | (reg, Raise x) => Run [GetStatus; reg] last_ts (Crashed x)
      | (reg, Ok _) =>
          match send_message (post e 1)
                  (py "Hello! " ++ name ++ py " connected via polling.") name
          with
          | (hello, Raise x) => Run [GetStatus; reg; hello] last_ts (Crashed x)
          | (hello, Ok _) =>
              after [GetStatus; reg; hello]
                    (while_true name (fetch e) (post e) cycles 0 last_ts 2)
          end
      end
  end.

(** *** Well-formed traffic

    The Message of the data model and the answer that carries a list of
    them, used to state what the loop does on the traffic the remote is
    meant to produce. *)

Record message : Type := Message {
  from : str;
  text : str;
  timestamp : Z
}.

Definition encode (m : message) : json :=
  JDict [(py "from", JStr (from m));
         (py "text", JStr (text m));
         (py "timestamp", JInt (timestamp m))].

Definition messages_answer (msgs : list message) : reply :=
  Answer (JDict [(py "success", JBool true);
                 (py "messages", JList (List.map encode msgs))]).

Definition is_user (m : message) : bool := str_eqb (from m) (py "user").

Definition terminating (m : message) : bool := says_bye (lower (text m)).

(** The result of the fetch reports failure: [result.get("success")] is
    false, [None] or otherwise falsy. *)
Definition fetch_failed (answer : reply) : Prop :=
  exists v, get (api_get answer) (py "success") JNull = Ok v
            /\ truthy v = false.

(** One cycle that fetched nothing. *)
Definition idle_cycle (last_ts : json) : list io :=
  [Sleep POLL_INTERVAL; GetMessages last_ts].

(** What the loop does for one message that does not end the session. *)
Definition echo (name : str) (m : message) : list io :=
  [Dispatch (encode m); PostMessage (py "Received: " ++ text m) (Some name)].

(** What it does for one that does. *)
Definition farewell (name : str) (m : message) : list io :=
  [Dispatch (encode m); PostMessage FAREWELL (Some name)].

(** The posts numbered [p] to [p + n - 1] are answered with objects. *)
Definition answered (post : nat -> reply) (p n : nat) : Prop :=
  forall i, i < n -> accepted (post (p + i)) = true.

(** *** What the specification assumes of the remote

    Each condition speaks of the answers to requests whose [since] is an
    integer, as every request of a run on well-formed traffic is. *)

(** Timestamps in non-decreasing order, none below [lo]. *)
Fixpoint ascending (lo : Z) (ts : list Z) : Prop :=
  match ts with
  | [] => True
  | t :: ts' => (lo <= t)%Z /\ ascending t ts'
  end.

(** Every answer is a failure or a list of Messages. *)
Definition wellformed_answers (fetch : nat -> json -> reply) : Prop :=
  forall k since,
    fetch_failed (fetch k (JInt since))
    \/ exists msgs, fetch k (JInt since) = messages_answer msgs.

(** The user messages of an answer come oldest first, none older than
    [since]. *)
Definition ordered_answers (fetch : nat -> json -> reply) : Prop :=
  forall k since msgs,
    fetch k (JInt since) = messages_answer msgs ->
    ascending since (List.map timestamp (filter is_user msgs)).

(** [since] is an exclusive lower bound. *)
Definition strict_since (fetch : nat -> json -> reply) : Prop :=
  forall k since msgs,
    fetch k (JInt since) = messages_answer msgs ->
    Forall (fun m => (since < timestamp m)%Z) (filter is_user msgs).

(** [a] is [b] with some of its items left out. *)
Inductive subseq (A : Type) : list A -> list A -> Prop :=
| subseq_nil : subseq [] []
| subseq_skip (x : A) (a b : list A) : subseq a b -> subseq a (x :: b)
| subseq_keep (x : A) (a b : list A) : subseq a b -> subseq (x :: a) (x :: b).

(** The remote serves the messages of one session, [timeline], recorded
    with non-decreasing timestamps: every answer is a failure or lists, in
    the order of the timeline, some of its messages whose timestamp is
    strictly greater than [since], each at most as often as the timeline
    holds it.  Which of them an answer lists, and when, is left open. *)
Definition serves (timeline : list message) (fetch : nat -> json -> reply)
  : Prop :=
  (exists lo, ascending lo (List.map timestamp timeline))
  /\ forall k since,
       fetch_failed (fetch k (JInt since))
       \/ exists msgs,
            fetch k (JInt since) = messages_answer msgs
            /\ subseq (filter is_user msgs)
                      (filter (fun m => (since <? timestamp m)%Z)
                              (filter is_user timeline)).

(** A remote that keeps [store] and answers with the messages newer than
    [since], in the order it keeps them. *)
Definition remote_of (store : list message) : nat -> json -> reply :=
  fun _ since =>
    match since with
    | JInt s => messages_answer (filter (fun m => (s <? timestamp m)%Z) store)
    | _ => Failed (py "bad request")
    end.

(** Every fetch in the trace comes right after a sleep of
    [POLL_INTERVAL]. *)
Fixpoint paced (tr : list io) : bool :=
  match tr with
  | [] => true
  | Sleep s :: tr' =>
      match tr' with
      | GetMessages _ :: tr'' => Z.eqb s POLL_INTERVAL && paced tr''
      | _ => paced tr'
      end
  | GetMessages _ :: _ => false
  | _ :: tr' => paced tr'
  end.

End Poll.

(** ** Streaming mode: [scripts/agent-chat-sse.py] *)

Module Sse.

(** The state a run of the script is in when it is observed: what it has
    done so far, the frame buffer, and how it ended. *)
Record run : Type := Run {
  trace : list io;
  buffer : str;
  ended : outcome
}.

Definition after (pre : list io) (r : run) : run :=
  Run (pre ++ trace r) (buffer r) (ended r).

(** [send_message(text)], given the remote's answer to the post. *)
Definition send_message (answer : reply) (text : str) : io * exc json :=
  (PostMessage text None, posted answer).

(** [chunk.decode("utf-8", errors="replace")] for the one byte that
    [resp.read(1)] returned: an ASCII byte is its own character, any other
    byte is an incomplete sequence and becomes U+FFFD. *)
Definition decode (b : Byte.byte) : str :=
  let n := Byte.to_N b in
  if (n <? 128)%N then [n] else [65533%N].

Definition TERMINATOR : str := [NL; NL].
Definition DATA_PREFIX : str := py "data: ".

(** What [json.loads] does with a text: a value, [json.JSONDecodeError],
    or another exception ([ValueError] for an integer of too many digits,
    [RecursionError] for nesting too deep). *)
Inductive decoded : Type :=
| Decoded (v : json)
| JSONDecodeError
| Fails (e : exn).

(** [handle_message(msg_text)]; [answer] is the remote's answer to the
    post it makes. *)
Definition handle_message (answer : reply) (msg_text : json)
  : list io * outcome :=
  match msg_text with
  | JStr t =>
      if says_bye (lower t) then
        match send_message answer FAREWELL with
        | (ev, Ok _) => ([ev], Exited 0)
        | (ev, Raise e) => ([ev], Crashed e)
        end
      else
        match send_message answer (py "Received: " ++ t) with
        | (ev, Ok _) => ([ev], Running)
        | (ev, Raise e) => ([ev], Crashed e)
        end
  | _ => ([], Crashed AttributeError)   (* no [lower] method *)
  end.

(** Lines 104 to 108: what is done with a decoded value. *)
Definition on_data (answer : reply) (data : json) : list io * outcome :=
  match data with
  | JDict fields =>
      if eq_str (match lookup (py "from") fields with
                 | Some v => v
                 | None => JNull
                 end) (py "user")
      then match subscript data (py "text") with
           | Raise e => ([], Crashed e)
           | Ok text =>
               let (tr, o) := handle_message answer text in
               (Dispatch data :: tr, o)
           end
      else ([], Running)   (* at most the console line of a connection notice *)
  | _ => ([], Running)
  end.

Section Listener.

Variable json_loads : str -> decoded.

(** The remote's answer to each post, numbered from the start of the
    script. *)
Variable post : nat -> reply.

(** Lines 101 to 110: one line of a frame; [p] numbers the next post. *)
Definition on_line (line : str) (p : nat) : list io * outcome :=
  if startswith line DATA_PREFIX then
    match json_loads (skipn 6 line) with
    | Decoded data => on_data (post p) data
    | JSONDecodeError => ([], Running)   (* except json.JSONDecodeError: pass *)
    | Fails e => ([], Crashed e)
    end
  else ([], Running).

(** [for line in lines:] *)
Fixpoint for_lines (lines : list str) (p : nat) : list io * outcome :=
  match lines with
  | [] => ([], Running)
  | line :: rest =>
      match on_line line p with
      | (tr, Running) =>
          let (tr', o) := for_lines rest (p + posts tr) in (tr ++ tr', o)
      | stopped => stopped
      end
  end.

(** Lines 97 to 111: one byte has been read. *)
Definition read_byte (buffer : str) (b : Byte.byte) (p : nat) : run :=
  let buffer := buffer ++ decode b in
  if endswith buffer TERMINATOR then
    match for_lines (split NL (strip buffer)) p with
    | (tr, Running) => Run tr [] Running          (* buffer = "" *)
    | (tr, o) => Run tr buffer o
    end
  else Run [] buffer Running.

(** [resp.read(1)] on a connection whose remaining input will arrive in the
    given chunks: the next byte, or nothing once the input is over. *)
Fixpoint read1 (conn : list (list Byte.byte))
  : option (Byte.byte * list (list Byte.byte)) :=
  match conn with
  | [] => None
  | [] :: rest => read1 rest
  | (b :: chunk) :: rest => Some (b, chunk :: rest)
  end.

(** [while True:] of [listen_sse], until the input is over ([break]) or the
    process ends.  The inner recursion reads the bytes of the chunk at the
    head of the connection; [read_loop_read1] below states the loop in terms
    of [read1]. *)
Fixpoint read_loop (conn : list (list Byte.byte)) (buffer : str) (p : nat)
    {struct conn} : run :=
  match conn with
  | [] => Run [] buffer Running
  | chunk :: rest =>
      (fix drain (pending : list Byte.byte) (buffer : str) (p : nat)
           {struct pending} : run :=
         match pending with
         | [] => read_loop rest buffer p
         | b :: pending' =>
             let r := read_byte buffer b p in
             match ended r with
             | Running =>
                 after (trace r)
                       (drain pending' (Sse.buffer r) (p + posts (trace r)))
             | _ => r
             end
         end) chunk buffer p
  end.

(** [listen_sse(agent_name)]; [conn = None] when [urlopen] raises. *)
Definition listen_sse (agent_name : str)
    (conn : option (list (list Byte.byte))) (p : nat) : run :=
  match conn with
  | None => Run [GetEvents agent_name] [] (Exited 1)
  | Some chunks => after [GetEvents agent_name] (read_loop chunks [] p)
  end.

(** [main()]; falling off the end of [listen_sse] ends the script. *)
Definition main (name : str) (status_answer : reply)
    (conn : option (list (list Byte.byte))) : run :=
  match check_status status_answer with
  | Raise x => Run [GetStatus] [] (Crashed x)
  | Ok false => Run [GetStatus] [] (Exited 1)
  | Ok true =>
      match send_message (post 0)
              (py "Hello! " ++ name ++ py " connected via SSE.") with
      | (hello, Raise x) => Run [GetStatus; hello] [] (Crashed x)
      | (hello, Ok _) =>
          let r := listen_sse name conn 1 in
          after [GetStatus; hello]
                (Run (trace r) (buffer r)
                     match ended r with Running => Returned | o => o end)
      end
  end.

(** The data lines of a frame and what follows their prefix. *)
Definition is_data_line (line : str) : bool := startswith line DATA_PREFIX.

Definition data_lines (frame : str) : list str :=
  filter is_data_line (split NL (strip frame)).

Definition payloads (frame : str) : list str :=
  List.map (skipn 6) (data_lines frame).

(** The loop on input that arrives in one piece. *)
Fixpoint read_bytes (pending : list Byte.byte) (buffer : str) (p : nat)
  : run :=
  match pending with
  | [] => Run [] buffer Running
  | b :: pending' =>
      let r := read_byte buffer b p in
      match ended r with
      | Running =>
          after (trace r)
                (read_bytes pending' (Sse.buffer r) (p + posts (trace r)))
      | _ => r
      end
  end.

(** Each payload decoded and handled on its own, in order, until one of
    them ends the process. *)
Fixpoint for_payloads (ps : list str) (p : nat) : list io * outcome :=
  match ps with
  | [] => ([], Running)
  | payload :: rest =>
      match match json_loads payload with
            | Decoded data => on_data (post p) data
            | JSONDecodeError => ([], Running)
            | Fails e => ([], Crashed e)
            end with
      | (tr, Running) =>
          let (tr', o) := for_payloads rest (p + posts tr) in (tr ++ tr', o)
      | stopped => stopped
      end
  end.

(** The framing the specification describes: the payloads of a frame are
    concatenated and decoded as one value. *)
Definition spec_frame_event (frame : str) : decoded :=
  json_loads (List.concat (payloads frame)).

End Listener.

(** What is left of [s] after its first terminator, if it has one: the
    bytes that belong to the next frame. *)
Fixpoint after_terminator (s : str) : option str :=
  if startswith s TERMINATOR then Some (skipn 2 s)
  else match s with
       | [] => None
       | _ :: s' => after_terminator s'
       end.

End Sse.

(** ** A reference decoder

    [Sse] takes [json.loads] as a parameter.  To run the listener on
    concrete input, [Json.loads] decodes JSON as the decoder of CPython
    does: objects (a repeated key keeps its last value), arrays, strings
    with their escapes and surrogate pairs, integers, floats, the literals
    and the constants [NaN], [Infinity] and [-Infinity], with
    insignificant white space; an integer of more than 4300 digits is a
    [ValueError].  One thing is left out: nesting is decoded to any depth,
    where CPython gives up with [RecursionError] at a depth that depends on
    the interpreter. *)

Module Json.

Local Open Scope N_scope.

Inductive parsed (A : Type) : Type :=
| Got (a : A) (rest : str)
| Bad                     (* json.JSONDecodeError *)
| Err (e : exn).

Arguments Got {A} a rest.
Arguments Bad {A}.
Arguments Err {A} e.

Definition MAX_STR_DIGITS : nat := 4300.

Definition is_ws (c : char) : bool :=
  (c =? 32) || (c =? 9) || (c =? 10) || (c =? 13).

Fixpoint skip_ws (s : str) : str :=
  match s with
  | [] => []
  | c :: s' => if is_ws c then skip_ws s' else s
  end.

Definition digit (c : char) : option Z :=
  if (48 <=? c) && (c <=? 57) then Some (Z.of_N (c - 48)) else None.

(** The digits at the head of [s], and what follows them. *)
Fixpoint take_digits (s : str) : list Z * str :=
  match s with
  | [] => ([], [])
  | c :: s' =>
      match digit c with
      | Some d => let (ds, rest) := take_digits s' in (d :: ds, rest)
      | None => ([], s)
      end
  end.

Definition number_of (ds : list Z) : Z :=
  fold_left (fun acc d => (10 * acc + d)%Z) ds 0%Z.

(** The integer part: a zero, or digits that do not start with zero. *)
Definition integer_part (s : str) : option (list Z * str) :=
  match s with
  | [] => None
  | c :: s' =>
      if c =? 48 then Some ([0%Z], s')
      else match digit c with
           | Some _ => Some (take_digits s)
           | None => None
           end
  end.

(** The fraction, if there is one: a point and at least one digit. *)
Definition fraction_part (s : str) : list Z * str :=
  match s with
  | c :: s' =>
      if c =? 46 then
        match take_digits s' with
        | ([], _) => ([], s)
        | found => found
        end
      else ([], s)
  | [] => ([], s)
  end.

(** The exponent, if there is one: [e] or [E], a sign or none, and at
    least one digit. *)
Definition exponent_part (s : str) : option Z * str :=
  match s with
  | c :: s' =>
      if (c =? 101) || (c =? 69) then
        let (sign, s'') :=
          match s' with
          | x :: r => if x =? 45 then ((-1)%Z, r)
                      else if x =? 43 then (1%Z, r) else (1%Z, s')
          | [] => (1%Z, s')
          end in
        match take_digits s'' with
        | ([], _) => (None, s)
        | (ds, rest) => (Some (sign * number_of ds)%Z, rest)
        end
      else (None, s)
  | [] => (None, s)
  end.

(** The number [m * 10 ** e]. *)
Definition decimal (m e : Z) : Q :=
  match e with
  | Z0 => Qmake m 1
  | Zpos k => Qmake (m * Z.pow 10 (Zpos k)) 1
  | Zneg k => Qmake m (Pos.pow 10 k)
  end.

Definition number (s : str) : parsed json :=
  let (sign, body) :=
    match s with
    | c :: s' => if c =? 45 then ((-1)%Z, s') else (1%Z, s)
    | [] => (1%Z, s)
    end in
  match integer_part body with
  | None => Bad
  | Some (ints, rest) =>
      let (fracs, rest') := fraction_part rest in
      let (exponent, rest'') := exponent_part rest' in
      match fracs, exponent with
      | [], None =>
          if Nat.ltb MAX_STR_DIGITS (List.length ints) then Err ValueError
          else Got (JInt (sign * number_of ints)%Z) rest''
      | _, _ =>
          let e := match exponent with Some e => e | None => 0%Z end in
          Got (JFloat (Finite
                 (decimal (sign * number_of (ints ++ fracs))%Z
                          (e - Z.of_nat (List.length fracs))%Z)))
              rest''
      end
  end.

Definition hex (c : char) : option N :=
  if (48 <=? c) && (c <=? 57) then Some (c - 48)
  else if (97 <=? c) && (c <=? 102) then Some (c - 87)
  else if (65 <=? c) && (c <=? 70) then Some (c - 55)
  else None.

(** Four hexadecimal digits. *)
Definition hex4 (s : str) : option (N * str) :=
  match s with
  | a :: b :: c :: d :: rest =>
      match hex a, hex b, hex c, hex d with
      | Some a, Some b, Some c, Some d =>
          Some (((a * 16 + b) * 16 + c) * 16 + d, rest)
      | _, _, _, _ => None
      end
  | _ => None
  end.

Definition escape (c : char) : option char :=
  if c =? 34 then Some 34 else
  if c =? 92 then Some 92 else
  if c =? 47 then Some 47 else
  if c =? 98 then Some 8 else
  if c =? 102 then Some 12 else
  if c =? 110 then Some 10 else
  if c =? 114 then Some 13 else
  if c =? 116 then Some 9 else None.

(** What follows [\u]: a code point, joined with the low surrogate of a
    following [\u] escape when it is a high surrogate. *)
Definition unicode_escape (s : str) : option (char * str) :=
  match hex4 s with
  | None => None
  | Some (hi, rest) =>
      if (55296 <=? hi) && (hi <=? 56319) then
        match rest with
        | b :: u :: rest' =>
            if (b =? 92) && (u =? 117) then
              match hex4 rest' with
              | None => None
              | Some (lo, rest'') =>
                  if (56320 <=? lo) && (lo <=? 57343)
                  then Some (65536 + (hi - 55296) * 1024 + (lo - 56320), rest'')
                  else Some (hi, rest)
              end
            else Some (hi, rest)
        | _ => Some (hi, rest)
        end
      else Some (hi, rest)
  end.

(** The rest of a string literal, after its opening quote.  [fuel] bounds
    the number of characters read. *)
Fixpoint chars (fuel : nat) (s : str) : option (str * str) :=
  match fuel with
  | O => None
  | S fuel' =>
      match s with
      | [] => None
      | c :: s' =>
          if c =? 34 then Some ([], s')
          else if c =? 92 then
            match s' with
            | [] => None
            | e :: s'' =>
                if e =? 117 then
                  match unicode_escape s'' with
                  | Some (x, rest) =>
                      match chars fuel' rest with
                      | Some (t, r) => Some (x :: t, r)
                      | None => None
                      end
                  | None => None
                  end
                else
                  match escape e, chars fuel' s'' with
                  | Some x, Some (t, r) => Some (x :: t, r)
                  | _, _ => None
                  end
            end
          else if c <? 32 then None
          else match chars fuel' s' with
               | Some (t, r) => Some (c :: t, r)
               | None => None
               end
      end
  end.

Definition string_literal (s : str) : option (str * str) :=
  chars (S (List.length s)) s.

Definition keyword (s : str) (word : string) (v : json) : parsed json :=
  if startswith s (py word) then Got v (skipn (String.length word) s)
  else Bad.

Fixpoint value (fuel : nat) (s : str) : parsed json :=
  match fuel with
  | O => Bad
  | S fuel' =>
      match s with
      | [] => Bad
      | c :: r =>
          if c =? 110 then keyword s "null" JNull
          else if c =? 116 then keyword s "true" (JBool true)
          else if c =? 102 then keyword s "false" (JBool false)
          else if c =? 78 then keyword s "NaN" (JFloat NaN)
          else if c =? 73 then keyword s "Infinity" (JFloat (Infinity false))
          else if startswith s (py "-Infinity")
          then keyword s "-Infinity" (JFloat (Infinity true))
          else if c =? 34 then
            match string_literal r with
            | Some (t, r') => Got (JStr t) r'
            | None => Bad
            end
          else if c =? 91 then
            match skip_ws r with
            | [] => Bad
            | c' :: r' =>
                if c' =? 93 then Got (JList []) r'
                else match elements fuel' (c' :: r') with
                     | Got l r'' => Got (JList l) r''
                     | Bad => Bad
                     | Err e => Err e
                     end
            end
          else if c =? 123 then
            match skip_ws r with
            | [] => Bad
            | c' :: r' =>
                if c' =? 125 then Got (JDict []) r'
                else match members fuel' (c' :: r') [] with
                     | Got d r'' => Got (JDict d) r''
                     | Bad => Bad
                     | Err e => Err e
                     end
            end
          else number s
      end
  end

with elements (fuel : nat) (s : str) : parsed (list json) :=
  match fuel with
  | O => Bad
  | S fuel' =>
      match value fuel' s with
      | Bad => Bad
      | Err e => Err e
      | Got v r =>
          match skip_ws r with
          | [] => Bad
          | c :: r' =>
              if c =? 44 then
                match elements fuel' (skip_ws r') with
                | Got l r'' => Got (v :: l) r''
                | Bad => Bad
                | Err e => Err e
                end
              else if c =? 93 then Got [v] r'
              else Bad
          end
      end
  end

with members (fuel : nat) (s : str) (acc : list (str * json))
  : parsed (list (str * json)) :=
  match fuel with
  | O => Bad
  | S fuel' =>
      match s with
      | [] => Bad
      | q :: r =>
          if negb (q =? 34) then Bad else
          match string_literal r with
          | None => Bad
          | Some (k, r1) =>
              match skip_ws r1 with
              | [] => Bad
              | colon :: r2 =>
                  if negb (colon =? 58) then Bad else
                  match value fuel' (skip_ws r2) with
                  | Bad => Bad
                  | Err e => Err e
                  | Got v r3 =>
                      let acc' := dict_set k v acc in
                      match skip_ws r3 with
                      | [] => Bad
                      | c :: r4 =>
                          if c =? 44 then members fuel' (skip_ws r4) acc'
                          else if c =? 125 then Got acc' r4
                          else Bad
                      end
                  end
              end
          end
      end
  end.

Definition loads (s : str) : Sse.decoded :=
  match value (2 * List.length s + 2) (skip_ws s) with
  | Got v r =>
      match skip_ws r with
      | [] => Sse.Decoded v
      | _ :: _ => Sse.JSONDecodeError
      end
  | Bad => Sse.JSONDecodeError
  | Err e => Sse.Fails e
  end.

(** Test input is written with an apostrophe for the double quote and a
    vertical bar for the line feed. *)
Definition wire_char (c : char) : char :=
  if c =? 39 then 34 else if c =? 124 then 10 else c.

Definition wire (lit : string) : str := List.map wire_char (py lit).

Definition wire_bytes (lit : string) : list Byte.byte :=
  List.map (fun a => byte_of_ascii (ascii_of_N (wire_char (N_of_ascii a))))
           (list_ascii_of_string lit).

End Json.

(** * Properties *)

(** ** String facts *)

Section Strings.

Lemma startswith_nil (s : str) : startswith s [] = true.
Proof. now destruct s. Qed.

Lemma startswith_spec (s p : str) :
  startswith s p = true <-> exists r, s = p ++ r.
Proof.
  revert s. induction p as [| c p IH]; intros s.
  - split; [intros _; now exists s | intros _; now destruct s].
  - destruct s as [| d s]; cbn [startswith].
    + split; [discriminate | intros [r Hr]; discriminate Hr].
    + rewrite andb_true_iff, N.eqb_eq, IH. split.
      * intros [-> [r ->]]. now exists r.
      * intros [r Hr]. injection Hr as -> ->. split; [reflexivity | now exists r].
Qed.

Lemma endswith_spec (s suffix : str) :
  endswith s suffix = true <-> exists a, s = a ++ suffix.
Proof.
  unfold endswith. rewrite startswith_spec. split.
  - intros [r Hr]. exists (rev r).
    rewrite <- (rev_involutive s), Hr, rev_app_distr.
    now rewrite rev_involutive.
  - intros [a ->]. exists (rev a). apply rev_app_distr.
Qed.

Lemma str_in_spec (needle hay : str) :
  str_in needle hay = true <-> exists a b, hay = a ++ needle ++ b.
Proof.
  induction hay as [| c hay IH]; cbn [str_in].
  - rewrite orb_false_r, startswith_spec. split.
    + intros [r Hr]. now exists [], r.
    + intros (a & b & H). symmetry in H.
      apply app_eq_nil in H. destruct H as [_ H]. now exists b.
  - rewrite orb_true_iff, startswith_spec, IH. split.
    + intros [[r Hr] | (a & b & ->)].
      * now exists [], r.
      * now exists (c :: a), b.
    + intros (a & b & H). destruct a as [| x a].
      * left. now exists b.
      * right. injection H as _ ->. now exists a, b.
Qed.

Lemma decode_single (b : Byte.byte) : exists c, Sse.decode b = [c].
Proof.
  unfold Sse.decode. destruct (Byte.to_N b <? 128)%N; eexists; reflexivity.
Qed.

(** A string that gains one character contains the terminator only if it
    did before or now ends with it. *)
Lemma str_in_snoc (t s : str) (c : char) :
  str_in t (s ++ [c]) = true ->
  str_in t s = true \/ endswith (s ++ [c]) t = true.
Proof.
  rewrite !str_in_spec, endswith_spec. intros (a & b & H).
  induction b as [| c' b' _] using rev_ind.
  - right. exists a. now rewrite app_nil_r in H.
  - left.
    replace (a ++ t ++ b' ++ [c']) with ((a ++ t ++ b') ++ [c']) in H
      by now rewrite <- !app_assoc.
    apply app_inj_tail in H. destruct H as [-> _]. now exists a, b'.
Qed.

Lemma after_terminator_at_end (a : str) :
  str_in Sse.TERMINATOR (a ++ [NL]) = false ->
  Sse.after_terminator (a ++ Sse.TERMINATOR) = Some [].
Proof.
  induction a as [| x a IH]; intros H; [reflexivity |].
  cbn [app str_in] in H. apply orb_false_iff in H. destruct H as [Hs H].
  cbn [app Sse.after_terminator].
  replace (startswith (x :: a ++ Sse.TERMINATOR) Sse.TERMINATOR) with false.
  - now apply IH.
  - rewrite <- Hs. unfold Sse.TERMINATOR.
    destruct a as [| y a]; cbn [app startswith];
      now rewrite ?startswith_nil.
Qed.

End Strings.

(** ** The reply logic *)

Section ReplyLogic.

Import Poll.

Lemma after_nil (r : Poll.run) : Poll.after [] r = r.
Proof. destruct r; reflexivity. Qed.

Lemma after_after (a b : list io) (r : Poll.run) :
  Poll.after a (Poll.after b r) = Poll.after (a ++ b) r.
Proof. unfold Poll.after; simpl. now rewrite app_assoc. Qed.

Lemma posted_accepted (answer : reply) :
  accepted answer = true -> posted answer = Ok (api_post answer).
Proof.
  unfold accepted, posted, get.
  now destruct (api_post answer).
Qed.

Lemma posted_refused (answer : reply) :
  accepted answer = false -> posted answer = Raise AttributeError.
Proof.
  unfold accepted, posted, get.
  destruct (api_post answer); try reflexivity. discriminate.
Qed.

Lemma lower_char_matches (x y : char) :
  lower_char y = y ->
  (lower_char x = y <->
   (N.eqb x y || (N.leb 97 y && N.leb y 122 && N.eqb (x + 32) y)) = true).
Proof.
  unfold lower_char. intros Hy.
  assert (Hy' : ((65 <=? y) && (y <=? 90))%N = false).
  { destruct ((65 <=? y) && (y <=? 90))%N; [lia | reflexivity]. }
  clear Hy. apply andb_false_iff in Hy'. rewrite !N.leb_gt in Hy'.
  rewrite orb_true_iff, !andb_true_iff, !N.eqb_eq, !N.leb_le.
  destruct ((65 <=? x) && (x <=? 90))%N eqn:Hx.
  - apply andb_true_iff in Hx. rewrite !N.leb_le in Hx. split.
    + intros <-. right. lia.
    + intros [H | [_ H]]; lia.
  - apply andb_false_iff in Hx. rewrite !N.leb_gt in Hx. split.
    + now left.
    + intros [H | [[H1 H2] H]]; lia.
Qed.

(** A lowered text is the needle exactly when the text is the needle up
    to the case of its letters. *)
Lemma lower_matches (m needle : str) :
  Forall (fun y => lower_char y = y) needle ->
  (lower m = needle <-> matches_ignoring_case m needle = true).
Proof.
  intros H. revert m. induction H as [| y needle Hy _ IH]; intros [| x m];
    cbn [lower List.map matches_ignoring_case];
    try (split; [discriminate | intros H; discriminate H]).
  - split; reflexivity.
  - rewrite andb_true_iff, <- (lower_char_matches x Hy), <- IH. split.
    + intros H. injection H as H1 H2. split; assumption.
    + intros [H1 H2]. unfold lower in H2. now rewrite H1, H2.
Qed.

(** [needle] occurs in a lowered text exactly when the text holds a piece
    that is [needle] up to case. *)
Lemma str_in_lower (needle t : str) :
  Forall (fun y => lower_char y = y) needle ->
  (str_in needle (lower t) = true <->
   exists a m b, t = a ++ m ++ b /\ matches_ignoring_case m needle = true).
Proof.
  intros Hn. rewrite str_in_spec. unfold lower at 1. split.
  - intros (a' & b' & H).
    apply map_eq_app in H. destruct H as (a & r & -> & Ha & H).
    apply map_eq_app in H. destruct H as (m & b & -> & Hm & Hb).
    exists a, m, b. split; [reflexivity |]. now apply lower_matches.
  - intros (a & m & b & -> & Hm). apply lower_matches in Hm; [| exact Hn].
    exists (lower a), (lower b). unfold lower in *.
    now rewrite !map_app, Hm.
Qed.

(** C1. A user message with text [t] takes the farewell path exactly when
    ["goodbye"] or ["bye"] occurs in [t.lower()], that is, when [t] holds
    one of the two words up to the case of its letters.  Either way one
    message is sent: the farewell on that path, ["Received: " + t]
    otherwise.  The post being answered with an object, the session then
    ends on the farewell path ([sys.exit(0)] when streaming, [return] when
    polling) and goes on otherwise, in polling mode with the rest of the
    batch.  The four texts of the specification take the farewell path, and
    so do texts in capitals. *)
Theorem termination_rule
    (name t : str) (msg ts last_ts : json) (rest : list json)
    (post : nat -> reply) (p : nat) (answer : reply)
    (Hts : subscript msg (py "timestamp") = Ok ts)
    (Htext : subscript msg (py "text") = Ok (JStr t)) :
  let bye := str_in (py "goodbye") (lower t) || str_in (py "bye") (lower t) in
  fst (Sse.handle_message answer (JStr t))
  = [PostMessage (if bye then FAREWELL else py "Received: " ++ t) None]
  /\ (accepted answer = true ->
      Sse.handle_message answer (JStr t) =
        (if bye then ([PostMessage FAREWELL None], Exited 0)
         else ([PostMessage (py "Received: " ++ t) None], Running))
      /\ (snd (Sse.handle_message answer (JStr t)) = Exited 0 <-> bye = true))
  /\ (accepted (post p) = true ->
      for_msgs post name (msg :: rest) last_ts p =
        (if bye then
           Poll.Run [Dispatch msg; PostMessage FAREWELL (Some name)] ts Returned
         else
           Poll.after [Dispatch msg;
                       PostMessage (py "Received: " ++ t) (Some name)]
                      (for_msgs post name rest ts (S p))))
  /\ (bye = true <->
      exists a m b,
        t = a ++ m ++ b
        /\ (matches_ignoring_case m (py "goodbye") = true
            \/ matches_ignoring_case m (py "bye") = true))
  /\ Forall (fun s => says_bye (lower (py s)) = true)
            ["bye"; "Goodbye!"; "say bye now"; "byebye program";
             "BYE"; "GOODBYE"; "See you, Bye."]%string.
Proof.
  intro bye.
  assert (Hbye : says_bye (lower t) = bye) by reflexivity.
  split; [| split; [| split; [| split]]].
  - unfold Sse.handle_message, Sse.send_message. rewrite Hbye.
    destruct bye; now destruct (posted answer).
  - intros Ha.
    assert (Hsse : Sse.handle_message answer (JStr t) =
              (if bye then ([PostMessage FAREWELL None], Exited 0)
               else ([PostMessage (py "Received: " ++ t) None], Running))).
    { unfold Sse.handle_message, Sse.send_message.
      rewrite Hbye, (posted_accepted _ Ha). now destruct bye. }
    split; [exact Hsse |].
    rewrite Hsse. destruct bye; simpl; split; congruence.
  - intros Hp. cbn [for_msgs]. rewrite Hts, Htext, Hbye.
    unfold send_message. rewrite (posted_accepted _ Hp). now destruct bye.
  - unfold bye. rewrite orb_true_iff, !str_in_lower
      by (repeat constructor).
    split.
    + intros [(a & m & b & H & Hm) | (a & m & b & H & Hm)];
        exists a, m, b; tauto.
    + intros (a & m & b & H & [Hm | Hm]); [left | right];
        now exists a, m, b.
  - repeat constructor.
Qed.

Lemma termination_rule_witness :
  Sse.handle_message post_ok (JStr (py "ping")) =
    ([PostMessage (py "Received: ping") None], Running)
  /\ for_msgs (fun _ => post_ok) (py "Agent")
       [encode (Message (py "user") (py "GOODBYE!") 5)] (JInt 0) 0 =
     Poll.Run [Dispatch (encode (Message (py "user") (py "GOODBYE!") 5));
               PostMessage FAREWELL (Some (py "Agent"))] (JInt 5) Returned.
Proof.
  split.
  - exact (proj1 (proj1 (proj2 (@termination_rule (py "Agent") (py "ping")
             (encode (Message (py "user") (py "ping") 7)) (JInt 7) (JInt 0) []
             (fun _ => post_ok) 0 post_ok eq_refl eq_refl)) eq_refl)).
  - exact (proj1 (proj2 (proj2 (@termination_rule (py "Agent") (py "GOODBYE!")
             (encode (Message (py "user") (py "GOODBYE!") 5)) (JInt 5) (JInt 0)
             [] (fun _ => post_ok) 0 post_ok eq_refl eq_refl))) eq_refl).
Defined.

End ReplyLogic.

(** ** Start-up *)

Section Bootstrap.

(** C8. When the readiness query fails, or the status it reports has no
    [filePath] or an empty one, [check_status] returns [False] and the
    script exits with code 1 having done nothing but the status request: no
    registration and no message is posted.  Both scripts behave so. *)
Theorem bootstrap_gate
    (name : str) (e : Poll.env) (cycles : nat)
    (conn : option (list (list Byte.byte)))
    (loads : str -> Sse.decoded) (post : nat -> reply)
    (H : not_ready (Poll.status_answer e)) :
  check_status (Poll.status_answer e) = Ok false
  /\ Poll.main name e cycles = Poll.Run [GetStatus] JNull (Exited 1)
  /\ Sse.main loads post name (Poll.status_answer e) conn
     = Sse.Run [GetStatus] [] (Exited 1).
Proof.
  assert (Hc : check_status (Poll.status_answer e) = Ok false).
  { destruct H as [[error ->] | (fields & status & -> & Hs & Hf)].
    - reflexivity.
    - unfold check_status, api_get, get, subscript, bind.
      destruct (lookup (py "success") fields) as [v |]; [| reflexivity].
      destruct (truthy v); [| reflexivity]. cbn [negb].
      rewrite Hs. destruct Hf as [-> | ->]; reflexivity. }
  split; [exact Hc | split].
  - unfold Poll.main. now rewrite Hc.
  - unfold Sse.main. now rewrite Hc.
Qed.

Lemma bootstrap_gate_witness :
  Poll.main (py "Agent")
    (Poll.Env
       (Answer (JDict [(py "success", JBool true);
                       (py "status", JDict [(py "filePath", JStr []);
                                            (py "totalLines", JInt 0)])]))
       1000 (fun _ _ => Failed (py "down")) (fun _ => post_ok))
    3
  = Poll.Run [GetStatus] JNull (Exited 1).
Proof.
  refine (proj1 (proj2 (@bootstrap_gate (py "Agent") _ 3 None Json.loads
                          (fun _ => post_ok) _))).
  right. do 2 eexists. split; [reflexivity |]. split; [reflexivity |].
  right. reflexivity.
Defined.

End Bootstrap.

(** ** The polling loop *)

Section PollingLoop.

Import Poll.

Lemma fetch_failed_Failed (error : str) : fetch_failed (Failed error).
Proof. exists (JBool false). split; reflexivity. Qed.

Lemma poll_messages_failed (answer : reply) :
  fetch_failed answer -> poll_messages answer = Ok [].
Proof.
  intros (v & Hv & Hf). unfold poll_messages. rewrite Hv. cbn [bind].
  now rewrite Hf.
Qed.

(** C6. A failed fetch makes [poll_messages] return the empty list; the
    cycle does nothing but wait and fetch, the cursor is unchanged, and the
    loop goes on to the next cycle.  This holds for any number [n] of
    failures in a row: every retry waits the same interval and asks with the
    same cursor. *)
Theorem failed_fetch_retried
    (name : str) (fetch : nat -> json -> reply) (post : nat -> reply)
    (last_ts : json) (n m k p : nat)
    (H : forall j, j < n -> fetch_failed (fetch (k + j) last_ts)) :
  (forall j, j < n -> poll_messages (fetch (k + j) last_ts) = Ok [])
  /\ while_true name fetch post (n + m) k last_ts p =
       after (List.concat (repeat (idle_cycle last_ts) n))
             (while_true name fetch post m (k + n) last_ts p)
  /\ dispatched (List.concat (repeat (idle_cycle last_ts) n)) = []
  /\ sent (List.concat (repeat (idle_cycle last_ts) n)) = [].
Proof.
  split; [| split; [| split]].
  - intros j Hj. apply poll_messages_failed. now apply H.
  - revert k H. induction n as [| n IH]; intros k H.
    + simpl. now rewrite after_nil, Nat.add_0_r.
    + cbn [Nat.add while_true repeat List.concat].
      assert (H0 : poll_messages (fetch k last_ts) = Ok []).
      { apply poll_messages_failed. specialize (H 0).
        rewrite Nat.add_0_r in H. apply H. lia. }
      rewrite H0. cbn [for_msgs ended trace cursor posts].
      rewrite app_nil_r, Nat.add_0_r. rewrite (IH (S k)).
      * rewrite after_after. f_equal. f_equal. lia.
      * intros j Hj. replace (S k + j) with (k + S j) by lia. apply H. lia.
  - induction n as [| n IH]; [reflexivity |]. simpl. apply IH.
    intros j Hj. apply H. lia.
  - induction n as [| n IH]; [reflexivity |]. simpl. apply IH.
    intros j Hj. apply H. lia.
Qed.

Lemma failed_fetch_retried_witness :
  while_true (py "Agent") (fun _ _ => Failed (py "timed out"))
    (fun _ => post_ok) 3 0 (JInt 1000) 2
  = Poll.Run [Sleep 2; GetMessages (JInt 1000);
              Sleep 2; GetMessages (JInt 1000);
              Sleep 2; GetMessages (JInt 1000)] (JInt 1000) Running.
Proof.
  refine (proj1 (proj2 (@failed_fetch_retried (py "Agent")
            (fun _ _ => Failed (py "timed out")) (fun _ => post_ok)
            (JInt 1000) 3 0 0 2 _))).
  intros j _. apply fetch_failed_Failed.
Defined.

End PollingLoop.

(** ** The polling loop on well-formed traffic *)

Section Batches.

Import Poll.

Variable name : str.
Variable post : nat -> reply.

Local Abbreviation echo := (Poll.echo name).
Local Abbreviation farewell := (Poll.farewell name).

Lemma encode_inj (a b : message) : encode a = encode b -> a = b.
Proof.
  destruct a, b. unfold encode; cbn [from text timestamp]. intros H.
  injection H as -> -> ->. reflexivity.
Qed.

Lemma map_encode_inj (a b : list message) :
  List.map encode a = List.map encode b -> a = b.
Proof.
  revert b. induction a as [| x a IH]; intros [| y b] H; try discriminate.
  - reflexivity.
  - cbn [List.map] in H. injection H as Hf Ht Hs Hr.
    destruct x, y; cbn [from text timestamp] in *; subst.
    f_equal. now apply IH.
Qed.

Lemma messages_answer_inj (a b : list message) :
  messages_answer a = messages_answer b -> a = b.
Proof.
  unfold messages_answer. intros H. injection H as Hm.
  now apply map_encode_inj.
Qed.

Lemma user_messages_encode (msgs : list message) :
  user_messages (List.map encode msgs)
  = Ok (List.map encode (filter is_user msgs)).
Proof.
  induction msgs as [| m msgs IH]; [reflexivity |].
  cbn [List.map user_messages filter].
  change (subscript (encode m) (py "from")) with (Ok (JStr (from m))).
  cbn [bind]. rewrite IH. cbn [bind eq_str].
  unfold is_user. now destruct (str_eqb (from m) (py "user")).
Qed.

Lemma poll_messages_answer (msgs : list message) :
  poll_messages (messages_answer msgs)
  = Ok (List.map encode (filter is_user msgs)).
Proof.
  unfold poll_messages, messages_answer, api_get.
  change (get _ (py "success") JNull) with (Ok (JBool true)).
  cbn [bind truthy negb].
  change (get _ (py "messages") (JList [])) with
    (Ok (JList (List.map encode msgs))).
  cbn [bind iterate]. apply user_messages_encode.
Qed.

Lemma messages_answer_not_failed (msgs : list message) :
  ~ fetch_failed (messages_answer msgs).
Proof.
  intros (v & Hv & Hf).
  change (get _ (py "success") JNull) with (Ok (JBool true)) in Hv.
  inversion Hv; subst. discriminate.
Qed.

(** One well-formed message: the post is made, and the loop goes on or
    returns if the post is answered with an object, and crashes if not. *)
Lemma for_msgs_encode (m : message) (rest : list json) (last_ts : json)
    (p : nat) :
  for_msgs post name (encode m :: rest) last_ts p =
    if terminating m then
      Poll.Run (farewell m) (JInt (timestamp m))
        (if accepted (post p) then Returned else Crashed AttributeError)
    else if accepted (post p) then
      after (echo m) (for_msgs post name rest (JInt (timestamp m)) (S p))
    else Poll.Run (echo m) (JInt (timestamp m)) (Crashed AttributeError).
Proof.
  cbn [for_msgs].
  change (subscript (encode m) (py "timestamp")) with (Ok (JInt (timestamp m))).
  change (subscript (encode m) (py "text")) with (Ok (JStr (text m))).
  cbv beta iota. unfold terminating, send_message.
  destruct (accepted (post p)) eqn:Hp.
  - rewrite (posted_accepted _ Hp). reflexivity.
  - rewrite (posted_refused _ Hp). reflexivity.
Qed.

Lemma last_cons (A : Type) (x d : A) (l : list A) :
  last (x :: l) d = last l x.
Proof.
  revert x d. induction l as [| y l IH]; intros x d; [reflexivity |].
  change (last (x :: y :: l) d) with (last (y :: l) d).
  now rewrite !IH.
Qed.

Lemma answered_S (p n : nat) :
  answered post p (S n) -> accepted (post p) = true /\ answered post (S p) n.
Proof.
  intros H. split.
  - specialize (H 0). rewrite Nat.add_0_r in H. apply H. lia.
  - intros i Hi. replace (S p + i) with (p + S i) by lia. apply H. lia.
Qed.

(** A batch with no terminating message, its posts answered with objects,
    is handled to its end. *)
Lemma for_msgs_echo (ms : list message) (rest : list json) (last_ts : json)
    (p : nat) :
  Forall (fun m => terminating m = false) ms ->
  answered post p (List.length ms) ->
  for_msgs post name (List.map encode ms ++ rest) last_ts p =
    after (flat_map echo ms)
          (for_msgs post name rest
             (last (List.map (fun m => JInt (timestamp m)) ms) last_ts)
             (p + List.length ms)).
Proof.
  intros H. revert last_ts p.
  induction H as [| m ms Hm _ IH]; intros last_ts p Hp.
  - simpl. now rewrite after_nil, Nat.add_0_r.
  - cbn [List.length] in Hp. apply answered_S in Hp. destruct Hp as [Hp Hps].
    cbn [List.map app]. rewrite for_msgs_encode, Hm, Hp, IH, after_after
      by assumption.
    cbn [flat_map List.length]. f_equal. f_equal; [| lia].
    symmetry. apply last_cons.
Qed.

Lemma dispatched_app (a b : list io) :
  dispatched (a ++ b) = dispatched a ++ dispatched b.
Proof.
  induction a as [| x a IH]; [reflexivity |].
  destruct x; simpl; now rewrite ?IH.
Qed.

Lemma sent_app (a b : list io) : sent (a ++ b) = sent a ++ sent b.
Proof.
  induction a as [| x a IH]; [reflexivity |].
  destruct x; simpl; now rewrite ?IH.
Qed.

Lemma posts_app (a b : list io) : posts (a ++ b) = posts a + posts b.
Proof.
  induction a as [| x a IH]; [reflexivity |].
  destruct x; simpl; now rewrite ?IH.
Qed.

Lemma dispatched_echo (ms : list message) :
  dispatched (flat_map echo ms) = List.map encode ms.
Proof. induction ms as [| m ms IH]; simpl; now rewrite ?IH. Qed.

Lemma sent_echo (ms : list message) :
  sent (flat_map echo ms)
  = List.map (fun m => py "Received: " ++ text m) ms.
Proof. induction ms as [| m ms IH]; simpl; now rewrite ?IH. Qed.

Lemma posts_echo (ms : list message) :
  posts (flat_map echo ms) = List.length ms.
Proof. induction ms as [| m ms IH]; simpl; now rewrite ?IH. Qed.

(** Whatever the posts are answered, a batch is handled message by message
    up to its first terminating message at the latest, and the loop does
    not go on after that message. *)
Lemma for_msgs_cut (before : list message) (bye : message) (rest : list json)
    (last_ts : json) (p : nat) :
  Forall (fun m => terminating m = false) before ->
  terminating bye = true ->
  exists n,
    trace (for_msgs post name (List.map encode (before ++ [bye]) ++ rest)
             last_ts p)
    = flat_map (fun m => if terminating m then farewell m else echo m)
               (firstn n (before ++ [bye]))
    /\ ended (for_msgs post name (List.map encode (before ++ [bye]) ++ rest)
                last_ts p) <> Running.
Proof.
  intros Hbefore Hbye. revert last_ts p.
  induction Hbefore as [| m before Hm _ IH]; intros last_ts p.
  - exists 1. cbn [app List.map firstn flat_map].
    rewrite for_msgs_encode, Hbye, app_nil_r.
    split; [reflexivity |]. cbn [ended]. now destruct (accepted (post p)).
  - cbn [app List.map]. rewrite for_msgs_encode, Hm.
    destruct (accepted (post p)).
    + destruct (IH (JInt (timestamp m)) (S p)) as (n & Htr & He).
      exists (S n). cbn [firstn flat_map after trace ended].
      rewrite Hm, Htr. split; [reflexivity | exact He].
    + exists 1. cbn [firstn flat_map trace ended]. rewrite Hm, app_nil_r.
      split; [reflexivity | discriminate].
Qed.

(** C10. When the user messages of a fetched batch are [before], then a
    terminating message [bye], then [later], no message of [later] is
    dispatched or answered, whatever the remote answers to the posts: the
    cycle handles the messages of the batch in turn, [bye] at the latest,
    and the loop does not go on.  The posts being answered with objects,
    the cycle answers the messages of [before], sends the farewell for
    [bye] and returns from [main], and the cursor is the timestamp of
    [bye], whatever the timestamps in [later]. *)
Theorem terminating_message_cuts_batch
    (fetch : nat -> json -> reply) (cycles k p : nat) (last_ts : json)
    (msgs before later : list message) (bye : message)
    (Hfetch : fetch k last_ts = messages_answer msgs)
    (Hbatch : filter is_user msgs = before ++ bye :: later)
    (Hbefore : Forall (fun m => terminating m = false) before)
    (Hbye : terminating bye = true) :
  let r := while_true name fetch post (S cycles) k last_ts p in
  (exists n,
      trace r
      = idle_cycle last_ts
        ++ flat_map (fun m => if terminating m then farewell m else echo m)
                    (firstn n (before ++ [bye]))
      /\ ended r <> Running)
  /\ (answered post p (S (List.length before)) ->
      trace r = idle_cycle last_ts ++ flat_map echo before ++ farewell bye
      /\ ended r = Returned
      /\ cursor r = JInt (timestamp bye)
      /\ dispatched (trace r) = List.map encode (before ++ [bye])
      /\ sent (trace r)
         = List.map (fun m => py "Received: " ++ text m) before ++ [FAREWELL]).
Proof.
  intros r.
  assert (Hb : List.map encode (filter is_user msgs)
               = List.map encode (before ++ [bye]) ++ List.map encode later).
  { rewrite Hbatch, <- map_app, <- app_assoc. reflexivity. }
  split.
  - destruct (for_msgs_cut bye (List.map encode later) last_ts p Hbefore Hbye)
      as (n & Htr & He).
    exists n. unfold r. cbn [while_true].
    rewrite Hfetch, poll_messages_answer, Hb.
    destruct (ended (for_msgs post name _ last_ts p)) eqn:Hend;
      try (now contradiction He);
      cbn [after trace ended]; rewrite Htr, ?Hend;
      (split; [reflexivity | discriminate]).
  - intros Hposts.
    assert (Hr : r = Poll.Run
              (idle_cycle last_ts ++ flat_map echo before ++ farewell bye)
              (JInt (timestamp bye)) Returned).
    { unfold r. cbn [while_true].
      rewrite Hfetch, poll_messages_answer, Hbatch, map_app.
      cbn [List.map].
      replace (S (List.length before)) with (List.length before + 1)
        in Hposts by lia.
      rewrite for_msgs_echo; [| assumption |].
      - rewrite for_msgs_encode, Hbye.
        replace (accepted (post (p + List.length before))) with true;
          [reflexivity |].
        symmetry. apply Hposts. lia.
      - intros i Hi. apply Hposts. lia. }
    rewrite Hr. cbn [trace ended cursor].
    repeat split.
    + rewrite !dispatched_app, dispatched_echo, map_app. reflexivity.
    + rewrite !sent_app, sent_echo. reflexivity.
Qed.

End Batches.

Section BatchExamples.

Import Poll.

Lemma terminating_message_cuts_batch_witness :
  let batch := [Message (py "user") (py "status?") 11;
                Message (py "agent") (py "Received: status?") 12;
                Message (py "user") (py "ok bye") 13;
                Message (py "user") (py "one more thing") 14] in
  let r := while_true (py "Agent") (fun _ _ => messages_answer batch)
             (fun _ => post_ok) 2 0 (JInt 10) 2 in
  cursor r = JInt 13 /\ ended r = Returned
  /\ sent (trace r) = [py "Received: status?"; FAREWELL].
Proof.
  intros batch r.
  assert (Hbefore : Forall (fun m => terminating m = false)
                      [Message (py "user") (py "status?") 11]).
  { constructor; [reflexivity | constructor]. }
  assert (Hposts : answered (fun _ => post_ok) 2 2).
  { intros i _. reflexivity. }
  destruct (proj2 (@terminating_message_cuts_batch (py "Agent")
              (fun _ => post_ok)
              (fun _ _ => messages_answer batch) 1 0 2 (JInt 10) batch
              [Message (py "user") (py "status?") 11]
              [Message (py "user") (py "one more thing") 14]
              (Message (py "user") (py "ok bye") 13)
              eq_refl eq_refl Hbefore eq_refl) Hposts)
    as (_ & He & Hc & _ & Hs).
  exact (conj Hc (conj He Hs)).
Defined.

End BatchExamples.

(** ** The cursor *)

Section Cursor.

Import Poll.

Variable name : str.
Variable fetch : nat -> json -> reply.
Variable post : nat -> reply.

Local Abbreviation echo := (Poll.echo name).
Local Open Scope Z_scope.

Lemma ascending_max (lo : Z) (ts : list Z) :
  ascending lo ts -> fold_left Z.max ts lo = last ts lo.
Proof.
  revert lo. induction ts as [| t ts IH]; intros lo H; [reflexivity |].
  destruct H as [Hlo H]. cbn [fold_left]. rewrite last_cons.
  rewrite Z.max_r by assumption. now apply IH.
Qed.

(** The part of an ordered batch that [for_msgs] handles, and where it
    leaves the cursor. *)
Lemma for_msgs_ascending (us : list message) (c : Z) (p : nat) :
  ascending c (List.map timestamp us) ->
  exists c1 handled rest,
    us = handled ++ rest
    /\ cursor (for_msgs post name (List.map encode us) (JInt c) p) = JInt c1
    /\ dispatched (trace (for_msgs post name (List.map encode us) (JInt c) p))
       = List.map encode handled
    /\ c <= c1
    /\ Forall (fun m => c <= timestamp m <= c1) handled.
Proof.
  revert c p. induction us as [| m us IH]; intros c p H.
  - exists c, [], []. cbn. repeat split; auto; lia.
  - destruct H as [Hc H]. cbn [List.map]. rewrite for_msgs_encode.
    assert (Hone : Forall (fun m0 => c <= timestamp m0 <= timestamp m) [m]).
    { constructor; [lia | constructor]. }
    destruct (terminating m); [| destruct (accepted (post p))].
    + exists (timestamp m), [m], us. cbn. repeat split; auto.
    + destruct (IH _ (S p) H)
        as (c1 & handled & rest & -> & Hcur & Hd & Hle & Hall).
      exists c1, (m :: handled), rest. cbn [after cursor trace ended].
      split; [reflexivity |]. split; [exact Hcur |].
      split; [cbn; now rewrite Hd |]. split; [lia |].
      constructor; [lia |].
      eapply Forall_impl; [| exact Hall]. cbn. intros; lia.
    + exists (timestamp m), [m], us. cbn. repeat split; auto.
Qed.

Lemma while_true_split (n m k : nat) (c : json) (p : nat) :
  while_true name fetch post (n + m) k c p =
    match ended (while_true name fetch post n k c p) with
    | Running =>
        after (trace (while_true name fetch post n k c p))
              (while_true name fetch post m (k + n)
                 (cursor (while_true name fetch post n k c p))
                 (p + posts (trace (while_true name fetch post n k c p))))
    | _ => while_true name fetch post n k c p
    end.
Proof.
  revert k c p. induction n as [| n IH]; intros k c p.
  - cbn. now rewrite after_nil, !Nat.add_0_r.
  - cbn [Nat.add while_true].
    destruct (poll_messages (fetch k c)) as [new_msgs | e]; [| reflexivity].
    destruct (ended (for_msgs post name new_msgs c p)) eqn:He;
      try (cbn [after ended]; now rewrite He).
    rewrite IH. cbn [after ended trace cursor].
    replace (S k + n)%nat with (k + S n)%nat by lia.
    destruct (ended (while_true name fetch post n (S k)
                       (cursor (for_msgs post name new_msgs c p))
                       (p + posts (trace (for_msgs post name new_msgs c p)))));
      try reflexivity.
    rewrite after_after. do 2 f_equal.
    rewrite !posts_app. cbn [posts]. lia.
Qed.

Hypothesis Hwf : wellformed_answers fetch.
Hypothesis Hord : ordered_answers fetch.

(** What holds of a run started with the cursor at [c]. *)
Lemma while_true_ordered (n k : nat) (c : Z) (p : nat) :
  exists c' ms,
    cursor (while_true name fetch post n k (JInt c) p) = JInt c'
    /\ c <= c'
    /\ dispatched (trace (while_true name fetch post n k (JInt c) p))
       = List.map encode ms
    /\ Forall (fun m => c <= timestamp m <= c') ms.
Proof.
  revert k c p. induction n as [| n IH]; intros k c p.
  - exists c, []. cbn. repeat split; auto; try lia; constructor.
  - cbn [while_true].
    destruct (Hwf k c) as [Hfail | [msgs Hmsgs]].
    + rewrite (poll_messages_failed Hfail). cbn [for_msgs ended trace cursor].
      destruct (IH (S k) c (p + posts [])%nat) as (c' & ms & Hcur & Hle & Hd & Hall).
      exists c', ms. cbn [after cursor trace]. rewrite app_nil_r.
      split; [exact Hcur |]. split; [exact Hle |].
      split; [exact Hd | exact Hall].
    + rewrite Hmsgs, poll_messages_answer.
      pose proof Hmsgs as Hasc. apply Hord in Hasc.
      destruct (for_msgs_ascending _ _ p Hasc)
        as (c1 & handled & rest & Hus & Hcur & Hd & Hle & Hall).
      destruct (ended (for_msgs post name _ (JInt c) p)) eqn:He.
      * rewrite Hcur.
        destruct (IH (S k) c1
                    (p + posts (trace (for_msgs post name
                           (List.map encode (filter is_user msgs))
                           (JInt c) p)))%nat)
          as (c' & ms & Hcur' & Hle' & Hd' & Hall').
        exists c', (handled ++ ms). cbn [after cursor trace].
        split; [exact Hcur' |]. split; [lia |].
        split.
        -- rewrite !dispatched_app, Hd, Hd', map_app. reflexivity.
        -- apply Forall_app. split.
           ++ eapply Forall_impl; [| exact Hall]. cbn. intros; lia.
           ++ eapply Forall_impl; [| exact Hall']. cbn. intros; lia.
      * exists c1, handled. cbn [after cursor trace].
        split; [exact Hcur |]. split; [lia |]. split; auto.
      * exists c1, handled. cbn [after cursor trace].
        split; [exact Hcur |]. split; [lia |]. split; auto.
      * exists c1, handled. cbn [after cursor trace].
        split; [exact Hcur |]. split; [lia |]. split; auto.
Qed.

End Cursor.

Section CursorClaims.

Import Poll.

Local Open Scope Z_scope.

Lemma last_map (A B : Type) (f : A -> B) (l : list A) (d : A) :
  last (List.map f l) (f d) = f (last l d).
Proof.
  revert d. induction l as [| x l IH]; intros d; [reflexivity |].
  cbn [List.map]. rewrite !last_cons. apply IH.
Qed.

(** The cursor after a cycle whose batch is handled to its end is the
    timestamp of the last user message of the batch. *)
Lemma cursor_after_whole_batch
    (name : str) (fetch : nat -> json -> reply) (post : nat -> reply)
    (k p : nat) (last_ts : json)
    (msgs others : list message) (first : message) :
  fetch k last_ts = messages_answer msgs ->
  filter is_user msgs = first :: others ->
  Forall (fun m => terminating m = false) (removelast (first :: others)) ->
  answered post p (List.length (first :: others)) ->
  cursor (while_true name fetch post 1 k last_ts p)
  = JInt (timestamp (last others first)).
Proof.
  intros Hfetch Hbatch Hinit Hposts. cbn [while_true].
  rewrite Hfetch, poll_messages_answer, Hbatch.
  rewrite (@app_removelast_last _ (first :: others) first) in Hposts |- *
    by discriminate.
  rewrite length_app in Hposts. cbn [List.length] in Hposts.
  rewrite map_app. cbn [List.map]. rewrite for_msgs_echo; [| assumption |].
  - rewrite for_msgs_encode, last_cons.
    replace (accepted (post (p + _)%nat)) with true
      by (symmetry; apply Hposts; lia).
    destruct (terminating (last others first)); reflexivity.
  - intros i Hi. apply Hposts. lia.
Qed.

(** C4, as the code has it.  Let the remote answer as the specification
    assumes: every answer is a failure or a list of Messages whose user
    messages come in non-decreasing timestamp order, none older than
    [since].  Then (1) after a cycle whose non-empty batch is handled to
    its end, that is, with no terminating message before the last one and
    every post answered with an object, the cursor is the maximum timestamp
    of the batch; (2) the cursor after [n + 1] cycles is not below the
    cursor after [n]; (3) the cursor is never below the timestamp of a
    message that has been dispatched.  (2) and (3) hold whatever the posts
    are answered. *)
Theorem cursor_on_ordered_batches
    (name : str) (fetch : nat -> json -> reply) (post : nat -> reply)
    (now : Z) (p0 : nat)
    (Hwf : wellformed_answers fetch) (Hord : ordered_answers fetch) :
  (forall k p since msgs first others,
      fetch k (JInt since) = messages_answer msgs ->
      filter is_user msgs = first :: others ->
      Forall (fun m => terminating m = false) (removelast (first :: others)) ->
      answered post p (List.length (first :: others)) ->
      cursor (while_true name fetch post 1 k (JInt since) p)
      = JInt (fold_left Z.max (List.map timestamp others) (timestamp first)))
  /\ (forall n, exists a b,
        cursor (while_true name fetch post n 0 (JInt now) p0) = JInt a
        /\ cursor (while_true name fetch post (S n) 0 (JInt now) p0) = JInt b
        /\ a <= b)
  /\ (forall n, exists c,
        cursor (while_true name fetch post n 0 (JInt now) p0) = JInt c
        /\ forall d,
             In d (dispatched
                     (trace (while_true name fetch post n 0 (JInt now) p0))) ->
             exists m, d = encode m /\ timestamp m <= c).
Proof.
  split; [| split].
  - intros k p since msgs first others Hfetch Hbatch Hinit Hposts.
    rewrite (@cursor_after_whole_batch name fetch post k p _ msgs others first
               Hfetch Hbatch Hinit Hposts).
    pose proof Hfetch as Hasc. apply Hord in Hasc. rewrite Hbatch in Hasc.
    destruct Hasc as [_ Hasc]. rewrite (ascending_max _ _ Hasc).
    now rewrite last_map.
  - intros n.
    destruct (@while_true_ordered name fetch post Hwf Hord n 0%nat now p0)
      as (a & ms & Ha & _).
    exists a. replace (S n) with (n + 1)%nat by lia.
    rewrite while_true_split.
    destruct (ended (while_true name fetch post n 0 (JInt now) p0));
      try (exists a; split; [exact Ha | split; [exact Ha | lia]]).
    rewrite Ha. cbn [after cursor].
    destruct (@while_true_ordered name fetch post Hwf Hord 1%nat (0 + n)%nat a
                (p0 + posts (trace (while_true name fetch post n 0 (JInt now) p0)))%nat)
      as (b & ms' & Hb & Hab & _).
    exists b. repeat split; assumption.
  - intros n.
    destruct (@while_true_ordered name fetch post Hwf Hord n 0%nat now p0)
      as (c & ms & Hc & _ & Hd & Hall).
    exists c. split; [exact Hc |]. intros d Hin. rewrite Hd in Hin.
    apply in_map_iff in Hin. destruct Hin as (m & <- & Hm).
    exists m. split; [reflexivity |].
    rewrite Forall_forall in Hall. apply Hall in Hm. lia.
Qed.

End CursorClaims.

(** ** A remote that keeps its messages in a list *)

Section Remote.

Import Poll.

Local Open Scope Z_scope.

Lemma ascending_lower (lo : Z) (ts : list Z) :
  ascending lo ts -> Forall (fun t => lo <= t) ts.
Proof.
  revert lo. induction ts as [| t ts IH]; intros lo H; constructor.
  - apply H.
  - destruct H as [Hlo H]. apply IH in H.
    eapply Forall_impl; [| exact H]. cbn. intros; lia.
Qed.

Lemma ascending_filter (p : message -> bool) (store : list message)
    (lo s : Z) :
  ascending lo (List.map timestamp store) ->
  (forall m, In m store -> p m = true -> s <= timestamp m) ->
  ascending s (List.map timestamp (filter p store)).
Proof.
  revert lo s. induction store as [| m store IH]; intros lo s H Hp.
  - exact I.
  - destruct H as [Hlo H]. cbn [filter].
    destruct (p m) eqn:Hm.
    + cbn [List.map ascending]. split.
      * apply Hp; [now left | exact Hm].
      * apply (IH (timestamp m)); [exact H |].
        intros m' Hin _. apply ascending_lower in H.
        rewrite Forall_forall in H. apply H. now apply in_map.
    + apply (IH (timestamp m)); [exact H |].
      intros m' Hin. apply Hp. now right.
Qed.

Lemma remote_of_wellformed (store : list message) :
  wellformed_answers (remote_of store).
Proof. intros k since. right. eexists. reflexivity. Qed.

Lemma remote_of_strict (store : list message) :
  strict_since (remote_of store).
Proof.
  intros k since msgs H. apply messages_answer_inj in H. subst msgs.
  apply Forall_forall. intros m Hm.
  apply filter_In in Hm. destruct Hm as [Hm _].
  apply filter_In in Hm. destruct Hm as [_ Hm]. lia.
Qed.

Lemma remote_of_ordered (store : list message) (lo : Z) :
  ascending lo (List.map timestamp store) ->
  ordered_answers (remote_of store).
Proof.
  intros Hasc k since msgs H. apply messages_answer_inj in H. subst msgs.
  assert (H1 : ascending since
                 (List.map timestamp
                    (filter (fun m => since <? timestamp m) store))).
  { apply (ascending_filter _ _ lo); [exact Hasc |]. intros m _ Hm. lia. }
  apply (ascending_filter _ _ since); [exact H1 |].
  intros m Hin _. apply ascending_lower in H1.
  rewrite Forall_forall in H1. apply H1. now apply in_map.
Qed.

End Remote.

(** ** One session's messages *)

Section Timeline.

Import Poll.

Local Open Scope Z_scope.

Lemma subseq_refl (A : Type) (l : list A) : subseq l l.
Proof. induction l; constructor; assumption. Qed.

Lemma subseq_nil_l (A : Type) (l : list A) : subseq [] l.
Proof. induction l; constructor; assumption. Qed.

Lemma subseq_app (A : Type) (a b a' b' : list A) :
  subseq a b -> subseq a' b' -> subseq (a ++ a') (b ++ b').
Proof.
  intros H H'. induction H; cbn [app]; try constructor; assumption.
Qed.

Lemma subseq_trans (A : Type) (a b c : list A) :
  subseq a b -> subseq b c -> subseq a c.
Proof.
  intros Hab Hbc. revert a Hab.
  induction Hbc as [| x b c _ IH | x b c _ IH]; intros a Hab.
  - exact Hab.
  - constructor. now apply IH.
  - inversion Hab; subst; constructor; now apply IH.
Qed.

Lemma subseq_prefix (A : Type) (a r b : list A) :
  subseq (a ++ r) b -> subseq a b.
Proof.
  apply subseq_trans. rewrite <- (app_nil_r a) at 1.
  apply subseq_app; [apply subseq_refl | apply subseq_nil_l].
Qed.

Lemma subseq_filter (A : Type) (f : A -> bool) (a b : list A) :
  subseq a b -> subseq (filter f a) (filter f b).
Proof.
  induction 1 as [| x a b _ IH | x a b _ IH]; cbn [filter].
  - constructor.
  - destruct (f x); [constructor |]; exact IH.
  - destruct (f x); [constructor |]; exact IH.
Qed.

Lemma subseq_filter_self (A : Type) (f : A -> bool) (l : list A) :
  subseq (filter f l) l.
Proof.
  induction l as [| x l IH]; cbn [filter]; [constructor |].
  destruct (f x); constructor; exact IH.
Qed.

Lemma subseq_In (A : Type) (a b : list A) (x : A) :
  subseq a b -> In x a -> In x b.
Proof.
  induction 1 as [| y a b _ IH | y a b _ IH]; cbn [In]; intuition.
Qed.

Lemma subseq_NoDup (A : Type) (a b : list A) :
  subseq a b -> NoDup b -> NoDup a.
Proof.
  induction 1 as [| y a b H IH | y a b H IH]; intros Hb.
  - constructor.
  - inversion Hb; subst. now apply IH.
  - inversion Hb as [| ? ? Hy Hb']; subst. constructor; [| now apply IH].
    intros Hin. apply Hy. eapply subseq_In; eassumption.
Qed.

Lemma subseq_ascending (a b : list message) (lo : Z) :
  subseq a b -> ascending lo (List.map timestamp b) ->
  ascending lo (List.map timestamp a).
Proof.
  intros H. revert lo. induction H as [| y a b _ IH | y a b _ IH];
    intros lo Hb; cbn [List.map ascending] in *.
  - exact I.
  - destruct Hb as [Hlo Hb]. apply IH in Hb.
    destruct a as [| x a]; [exact I |].
    cbn [List.map ascending] in *. split; [lia | tauto].
  - split; [tauto | apply IH; tauto].
Qed.

Lemma filter_all (A : Type) (f : A -> bool) (l : list A) :
  Forall (fun x => f x = true) l -> filter f l = l.
Proof.
  induction 1 as [| x l Hx _ IH]; [reflexivity |].
  cbn [filter]. now rewrite Hx, IH.
Qed.

Lemma filter_none (A : Type) (f : A -> bool) (l : list A) :
  Forall (fun x => f x = false) l -> filter f l = [].
Proof.
  induction 1 as [| x l Hx _ IH]; [reflexivity |].
  cbn [filter]. now rewrite Hx, IH.
Qed.

(** A list in timestamp order is its part up to [c] followed by its part
    after [c]. *)
Lemma ascending_split (l : list message) (lo c : Z) :
  ascending lo (List.map timestamp l) ->
  l = filter (fun m => timestamp m <=? c) l
      ++ filter (fun m => c <? timestamp m) l.
Proof.
  revert lo. induction l as [| m l IH]; intros lo H; [reflexivity |].
  destruct H as [_ H]. cbn [filter].
  destruct (Z.leb_spec (timestamp m) c) as [Hm | Hm].
  - replace (c <? timestamp m) with false by (symmetry; lia).
    cbn [app]. f_equal. now apply (IH (timestamp m)).
  - replace (c <? timestamp m) with true by (symmetry; lia).
    apply ascending_lower in H. rewrite Forall_map in H.
    rewrite filter_none, filter_all; [reflexivity | |];
      (eapply Forall_impl; [| exact H]); cbn; intros; lia.
Qed.

Lemma filter_after (l : list message) (c c1 : Z) :
  c <= c1 ->
  filter (fun m => c1 <? timestamp m) (filter (fun m => c <? timestamp m) l)
  = filter (fun m => c1 <? timestamp m) l.
Proof.
  intros Hc. induction l as [| m l IH]; [reflexivity |].
  cbn [filter]. destruct (Z.ltb_spec c (timestamp m)) as [Hm | Hm].
  - cbn [filter]. now rewrite IH.
  - rewrite IH. replace (c1 <? timestamp m) with false by (symmetry; lia).
    reflexivity.
Qed.

Variable name : str.
Variable fetch : nat -> json -> reply.
Variable post : nat -> reply.
Variable timeline : list message.

Hypothesis Hserves : serves timeline fetch.

Lemma serves_users :
  exists lo, ascending lo (List.map timestamp (filter is_user timeline)).
Proof.
  destruct Hserves as [[lo Hlo] _]. exists lo.
  eapply subseq_ascending; [apply subseq_filter_self | exact Hlo].
Qed.

(** What a run started with the cursor at [c] dispatches: messages of the
    timeline newer than [c], in the order of the timeline, none more often
    than the timeline holds it. *)
Lemma while_true_serves (n k : nat) (c : Z) (p : nat) :
  exists ms,
    dispatched (trace (while_true name fetch post n k (JInt c) p))
    = List.map encode ms
    /\ subseq ms (filter (fun m => c <? timestamp m)
                         (filter is_user timeline)).
Proof.
  destruct serves_users as [lo Husers].
  revert k c p. induction n as [| n IH]; intros k c p.
  - exists []. split; [reflexivity | apply subseq_nil_l].
  - cbn [while_true].
    destruct (proj2 Hserves k c) as [Hfail | (msgs & Hmsgs & Hsub)].
    + rewrite (poll_messages_failed Hfail). cbn [for_msgs ended trace cursor].
      destruct (IH (S k) c (p + posts [])%nat) as (ms & Hd & Hms).
      exists ms. cbn [after trace]. rewrite app_nil_r.
      split; [exact Hd | exact Hms].
    + rewrite Hmsgs, poll_messages_answer.
      set (G := filter (fun m => c <? timestamp m) (filter is_user timeline))
        in *.
      assert (HG : ascending c (List.map timestamp G)).
      { unfold G. apply (@ascending_filter _ _ lo c); [exact Husers |].
        intros m _ Hm. lia. }
      pose proof (@subseq_ascending _ _ c Hsub HG) as Hasc.
      destruct (@for_msgs_ascending name post _ _ p Hasc)
        as (c1 & handled & rest & Hus & Hcur & Hd & Hle & Hall).
      assert (Hh : subseq handled G).
      { apply subseq_prefix with (r := rest). now rewrite <- Hus. }
      destruct (ended (for_msgs post name _ (JInt c) p)) eqn:He;
        try (exists handled; cbn [after trace];
             split; [exact Hd | exact Hh]).
      rewrite Hcur.
      destruct (IH (S k) c1
                  (p + posts (trace (for_msgs post name
                         (List.map encode (filter is_user msgs))
                         (JInt c) p)))%nat)
        as (ms & Hd' & Hms).
      exists (handled ++ ms). cbn [after trace cursor]. split.
      * rewrite !dispatched_app, Hd, Hd', map_app. reflexivity.
      * rewrite (@ascending_split G c c1 HG).
        apply subseq_app.
        -- rewrite <- (filter_all (fun m => timestamp m <=? c1) (l := handled)).
           ++ now apply subseq_filter.
           ++ eapply Forall_impl; [| exact Hall]. cbn. intros; lia.
        -- unfold G. now rewrite filter_after.
Qed.

End Timeline.

Section TimelineClaims.

Import Poll.

Local Open Scope Z_scope.

(** C5.  Let the remote serve the messages of a session as the
    specification assumes: they are recorded with non-decreasing
    timestamps, and every answer is a failure or lists, in that order,
    some of the messages whose timestamp is strictly greater than [since],
    chunked in any way.  Then, over any number of cycles and whatever the
    posts are answered, the messages dispatched are messages of the
    session in the order of its timeline, each dispatched at most as often
    as the timeline holds it: once, if the timeline holds no message
    twice. *)
Theorem no_duplicate_delivery
    (name : str) (fetch : nat -> json -> reply) (post : nat -> reply)
    (timeline : list message) (now : Z) (n p : nat)
    (Hserves : serves timeline fetch) :
  (exists ms,
      dispatched (trace (while_true name fetch post n 0 (JInt now) p))
      = List.map encode ms
      /\ subseq ms (filter is_user timeline))
  /\ (NoDup timeline ->
      NoDup (dispatched (trace (while_true name fetch post n 0 (JInt now) p)))).
Proof.
  destruct (@while_true_serves name fetch post timeline Hserves n 0%nat now p)
    as (ms & Hd & Hms).
  assert (Hsub : subseq ms (filter is_user timeline)).
  { eapply subseq_trans; [exact Hms | apply subseq_filter_self]. }
  split; [now exists ms |].
  intros Hnd. rewrite Hd.
  assert (Hms' : NoDup ms).
  { eapply subseq_NoDup; [exact Hsub |]. now apply NoDup_filter. }
  clear - Hms'. induction Hms' as [| m ms Hm _ IH]; cbn [List.map];
    constructor; [| exact IH].
  intros Hin. apply in_map_iff in Hin. destruct Hin as (m' & He & Hm').
  apply encode_inj in He. now subst.
Qed.

Lemma filter_comm (A : Type) (f g : A -> bool) (l : list A) :
  filter f (filter g l) = filter g (filter f l).
Proof.
  induction l as [| x l IH]; [reflexivity |].
  cbn [filter]. destruct (f x) eqn:Ef, (g x) eqn:Eg; cbn [filter];
    rewrite ?Ef, ?Eg, IH; reflexivity.
Qed.

Lemma remote_of_serves (store : list message) (lo : Z) :
  ascending lo (List.map timestamp store) -> serves store (remote_of store).
Proof.
  intros Hasc. split; [now exists lo |].
  intros k since. right. eexists. split; [reflexivity |].
  rewrite filter_comm. apply subseq_refl.
Qed.

End TimelineClaims.

Section CursorExamples.

Import Poll.

Local Open Scope Z_scope.

Lemma cursor_on_ordered_batches_witness :
  let one := Message (py "user") (py "one") 1005 in
  let two := Message (py "user") (py "two") 1010 in
  let run n :=
    while_true (py "Agent") (remote_of [one; two]) (fun _ => post_ok)
      n 0 (JInt 1000) 2 in
  cursor (run 1%nat) = JInt (fold_left Z.max [timestamp two] (timestamp one))
  /\ exists a b,
       cursor (run 1%nat) = JInt a /\ cursor (run 2%nat) = JInt b /\ a <= b.
Proof.
  intros one two run.
  assert (Hord : ordered_answers (remote_of [one; two])).
  { apply (@remote_of_ordered _ 0). cbn. lia. }
  destruct (@cursor_on_ordered_batches (py "Agent") (remote_of [one; two])
              (fun _ => post_ok) 1000 2
              (remote_of_wellformed _) Hord) as (Hmax & Hmono & _).
  split.
  - apply (Hmax 0%nat 2%nat 1000 [one; two] one [two]).
    + reflexivity.
    + reflexivity.
    + constructor; [reflexivity | constructor].
    + intros i _. reflexivity.
  - exact (Hmono 1%nat).
Defined.

(** C4 as stated fails on a batch that holds a terminating message before
    its end.  The remote keeps two user messages, "bye" of timestamp 5 and
    "later" of timestamp 7, and answers the fetch with both, in timestamp
    order and newer than [since]; every post is answered with an object.
    The first message is handled, the farewell is sent and [main] returns:
    the cycle leaves the cursor at 5, below the maximum 7 of the batch. *)
Lemma cursor_cut_by_farewell :
  let bye := Message (py "user") (py "bye") 5 in
  let later := Message (py "user") (py "later") 7 in
  let fetch := remote_of [bye; later] in
  let r := while_true (py "Agent") fetch (fun _ => post_ok) 1 0 (JInt 0) 2 in
  serves [bye; later] fetch
  /\ fetch 0%nat (JInt 0) = messages_answer [bye; later]
  /\ filter is_user [bye; later] = [bye; later]
  /\ dispatched (trace r) = [encode bye]
  /\ ended r = Returned
  /\ cursor r = JInt 5
  /\ fold_left Z.max [timestamp later] (timestamp bye) = 7.
Proof.
  intros bye later fetch r.
  split; [apply (@remote_of_serves _ 0); cbn; lia |].
  repeat split.
Qed.

Lemma no_duplicate_delivery_witness :
  NoDup (dispatched (trace (while_true (py "Agent")
           (remote_of [Message (py "user") (py "one") 1005;
                       Message (py "user") (py "two") 1010])
           (fun _ => post_ok) 3 0 (JInt 1000) 2))).
Proof.
  apply (@no_duplicate_delivery (py "Agent") _ (fun _ => post_ok)
           [Message (py "user") (py "one") 1005;
            Message (py "user") (py "two") 1010] 1000 3 2).
  - apply (@remote_of_serves _ 0). cbn. lia.
  - constructor; [| constructor; [intros [] | constructor]].
    intros [H | []]. discriminate H.
Defined.

End CursorExamples.

(** ** The frame loop *)

Section FrameLoop.

Import Sse.

Variable loads : str -> decoded.
Variable post : nat -> reply.

Lemma sse_after_nil (r : Sse.run) : Sse.after [] r = r.
Proof. destruct r; reflexivity. Qed.

(** The loop as the script writes it: read one byte, stop when there is
    none, otherwise handle it and go round again. *)
Lemma read_loop_read1 (conn : list (list Byte.byte)) (buffer : str) (p : nat) :
  read_loop loads post conn buffer p =
    match read1 conn with
    | None => Sse.Run [] buffer Running
    | Some (b, conn') =>
        let r := read_byte loads post buffer b p in
        match ended r with
        | Running =>
            Sse.after (trace r)
              (read_loop loads post conn' (Sse.buffer r) (p + posts (trace r)))
        | _ => r
        end
    end.
Proof.
  induction conn as [| chunk rest IH]; [reflexivity |].
  destruct chunk as [| b chunk]; [exact IH | reflexivity].
Qed.

(** Reading a connection is reading its bytes, wherever the chunks end. *)
Lemma read_loop_bytes (conn : list (list Byte.byte)) (buffer : str) (p : nat) :
  read_loop loads post conn buffer p
  = read_bytes loads post (List.concat conn) buffer p.
Proof.
  revert buffer p. induction conn as [| chunk rest IH]; intros buffer p;
    [reflexivity |].
  revert buffer p. induction chunk as [| b chunk IHc]; intros buffer p.
  - apply IH.
  - rewrite read_loop_read1. cbn [read1 List.concat app read_bytes].
    cbv zeta. destruct (ended (read_byte loads post buffer b p));
      try reflexivity.
    f_equal. apply IHc.
Qed.

(** C3. Two deliveries of the same bytes, cut into chunks in any two ways,
    make the listener do the same things in the same order and leave it in
    the same state; so does the delivery one byte at a time.  The same
    holds of the whole script. *)
Theorem chunk_invariance
    (c1 c2 : list (list Byte.byte)) (buffer name : str) (status : reply)
    (p : nat)
    (H : List.concat c1 = List.concat c2) :
  read_loop loads post c1 buffer p = read_loop loads post c2 buffer p
  /\ read_loop loads post (List.map (fun b => [b]) (List.concat c1)) buffer p
     = read_loop loads post c1 buffer p
  /\ main loads post name status (Some c1)
     = main loads post name status (Some c2).
Proof.
  assert (H12 : forall buf q,
             read_loop loads post c1 buf q = read_loop loads post c2 buf q).
  { intros buf q. now rewrite !read_loop_bytes, H. }
  split; [apply H12 | split].
  - rewrite !read_loop_bytes. f_equal.
    generalize (List.concat c1). intros l.
    induction l as [| b l IH]; [reflexivity |]. cbn. now rewrite IH.
  - unfold main, listen_sse. now rewrite H12.
Qed.

End FrameLoop.

Section FrameLoopExamples.

Import Sse.

Lemma chunk_invariance_witness :
  read_loop Json.loads (fun _ => post_ok)
    [Json.wire_bytes "da"; []; Json.wire_bytes "ta: {'from':'user','text':'hi'}|";
     Json.wire_bytes "|"] [] 1
  = read_loop Json.loads (fun _ => post_ok)
      [Json.wire_bytes "data: {'from':'user','text':'hi'}||"] [] 1.
Proof.
  exact (proj1 (@chunk_invariance Json.loads (fun _ => post_ok)
           [Json.wire_bytes "da"; [];
            Json.wire_bytes "ta: {'from':'user','text':'hi'}|";
            Json.wire_bytes "|"]
           [Json.wire_bytes "data: {'from':'user','text':'hi'}||"]
           [] (py "Agent") (Failed []) 1 eq_refl)).
Defined.

End FrameLoopExamples.

(** ** Frames *)

Section Frames.

Import Sse.

Variable loads : str -> decoded.
Variable post : nat -> reply.

Lemma handle_message_quiet (answer : reply) (text : json) :
  dispatched (fst (handle_message answer text)) = []
  /\ (List.length (sent (fst (handle_message answer text))) <= 1)%nat
  /\ (posts (fst (handle_message answer text)) <= 1)%nat.
Proof.
  unfold handle_message, send_message.
  destruct text as [| | | | t | |]; try (cbn; repeat split; lia).
  destruct (says_bye (lower t)), (posted answer); cbn; repeat split; lia.
Qed.

(** A decoded value is dispatched at most once and answered at most
    once. *)
Lemma on_data_once (answer : reply) (data : json) :
  (List.length (dispatched (fst (on_data answer data))) <= 1)%nat
  /\ (List.length (sent (fst (on_data answer data))) <= 1)%nat.
Proof.
  unfold on_data. destruct data; try (cbn; lia).
  destruct (eq_str _ _); [| cbn; lia].
  unfold subscript.
  destruct (lookup (py "text") fields) as [text |]; [| cbn; lia].
  destruct (handle_message_quiet answer text) as (Hd & Hs & _).
  destruct (handle_message answer text) as [tr o]. cbn [fst] in *.
  cbn [dispatched sent]. rewrite Hd. cbn [List.length]. lia.
Qed.

(** Lines without the prefix are passed over; the others are handled by
    what follows the prefix. *)
Lemma for_lines_payloads (lines : list str) (p : nat) :
  for_lines loads post lines p
  = for_payloads loads post
      (List.map (skipn 6) (filter is_data_line lines)) p.
Proof.
  revert p. induction lines as [| line lines IH]; intros p; [reflexivity |].
  cbn [for_lines filter]. unfold on_line, is_data_line.
  destruct (startswith line DATA_PREFIX).
  - cbn [List.map for_payloads].
    destruct (match loads (skipn 6 line) with
              | Decoded data => on_data (post p) data
              | JSONDecodeError => ([], Running)
              | Fails e => ([], Crashed e)
              end) as [tr o].
    destruct o; try reflexivity. now rewrite IH.
  - cbn [posts]. rewrite Nat.add_0_r, IH. now destruct (for_payloads _ _ _ _).
Qed.

Lemma for_payloads_bound (ps : list str) (p : nat) :
  (List.length (dispatched (fst (for_payloads loads post ps p)))
   <= List.length ps)%nat
  /\ (List.length (sent (fst (for_payloads loads post ps p)))
      <= List.length ps)%nat.
Proof.
  revert p. induction ps as [| x ps IH]; intros p; [cbn; auto |].
  cbn [for_payloads List.length].
  assert (H1 : (List.length (dispatched (fst
                  match loads x with
                  | Decoded data => on_data (post p) data
                  | JSONDecodeError => ([], Running)
                  | Fails e => ([], Crashed e)
                  end)) <= 1)%nat
               /\ (List.length (sent (fst
                  match loads x with
                  | Decoded data => on_data (post p) data
                  | JSONDecodeError => ([], Running)
                  | Fails e => ([], Crashed e)
                  end)) <= 1)%nat).
  { destruct (loads x); [apply on_data_once | cbn; auto | cbn; auto]. }
  destruct (match loads x with
            | Decoded data => on_data (post p) data
            | JSONDecodeError => ([], Running)
            | Fails e => ([], Crashed e)
            end) as [tr o].
  destruct (IH (p + posts tr)%nat) as [IHd IHs].
  destruct (for_payloads loads post ps (p + posts tr)) as [tr' o'].
  cbn [fst] in *. destruct H1 as [H1 H2].
  destruct o; cbn [fst]; rewrite ?dispatched_app, ?sent_app, ?length_app; lia.
Qed.

(** C2, as the code has it.  For every frame, the lines that do not begin
    with ["data: "] are ignored and what follows the prefix of each data
    line is decoded and handled as a JSON value of its own, line by line;
    a frame with [k] data lines yields at most [k] dispatched events and at
    most [k] replies. *)
Theorem data_lines_decoded_one_by_one (frame : str) (p : nat) :
  for_lines loads post (split NL (strip frame)) p
  = for_payloads loads post (payloads frame) p
  /\ (List.length
        (dispatched (fst (for_lines loads post (split NL (strip frame)) p)))
      <= List.length (data_lines frame))%nat
  /\ (List.length
        (sent (fst (for_lines loads post (split NL (strip frame)) p)))
      <= List.length (data_lines frame))%nat.
Proof.
  rewrite for_lines_payloads. fold (data_lines frame). fold (payloads frame).
  split; [reflexivity |].
  destruct (for_payloads_bound (payloads frame) p) as [Hd Hs].
  unfold payloads in Hd, Hs |- *. rewrite length_map in Hd, Hs. now split.
Qed.

End Frames.

Section FrameErrors.

Import Sse.

Variable loads : str -> decoded.
Variable post : nat -> reply.




End FrameErrors.

Section FrameExamples.

Import Sse.

Lemma data_lines_decoded_one_by_one_example :
  read_bytes Json.loads (fun _ => post_ok)
    (Json.wire_bytes "event: message|data: {'from':'user','text':'hi','timestamp':5}||")
    [] 1
  = Sse.Run
      [Dispatch (JDict [(py "from", JStr (py "user"));
                        (py "text", JStr (py "hi"));
                        (py "timestamp", JInt 5)]);
       PostMessage (py "Received: hi") None]
      [] Running.
Proof. reflexivity. Qed.

(** C2 as stated fails on a frame with two data lines.  Each line carries
    a user message; the concatenation of the two payloads is not a JSON
    value, so the framing of the specification yields no event; the script
    decodes the lines one by one, dispatches two events and sends two
    replies. *)
Lemma two_data_lines_two_events :
  endswith
    (Json.wire "data: {'from':'user','text':'a'}|data: {'from':'user','text':'b'}||")
    TERMINATOR = true
  /\ List.length
       (data_lines
          (Json.wire "data: {'from':'user','text':'a'}|data: {'from':'user','text':'b'}||"))
     = 2%nat
  /\ spec_frame_event Json.loads
       (Json.wire "data: {'from':'user','text':'a'}|data: {'from':'user','text':'b'}||")
     = JSONDecodeError
  /\ read_bytes Json.loads (fun _ => post_ok)
       (Json.wire_bytes "data: {'from':'user','text':'a'}|data: {'from':'user','text':'b'}||")
       [] 1
     = Sse.Run
         [Dispatch (JDict [(py "from", JStr (py "user")); (py "text", JStr (py "a"))]);
          PostMessage (py "Received: a") None;
          Dispatch (JDict [(py "from", JStr (py "user")); (py "text", JStr (py "b"))]);
          PostMessage (py "Received: b") None]
         [] Running.
Proof. repeat split. Qed.



End FrameExamples.

(** ** The frame buffer *)

Section FrameBuffer.

Import Sse.

Variable loads : str -> decoded.
Variable post : nat -> reply.

(** Between two reads the buffer holds no terminator. *)
Lemma read_byte_buffer (buffer : str) (b : Byte.byte) (p : nat) :
  str_in TERMINATOR buffer = false ->
  ended (read_byte loads post buffer b p) = Running ->
  str_in TERMINATOR (Sse.buffer (read_byte loads post buffer b p)) = false.
Proof.
  intros Hbuf. unfold read_byte.
  destruct (endswith (buffer ++ decode b) TERMINATOR) eqn:Hend.
  - destruct (for_lines loads post _ p) as [tr o].
    destruct o; cbn [ended Sse.buffer]; try discriminate. reflexivity.
  - cbn [ended Sse.buffer]. intros _.
    destruct (decode_single b) as [c Hc]. rewrite Hc in *.
    destruct (str_in TERMINATOR (buffer ++ [c])) eqn:Hin; [| reflexivity].
    apply str_in_snoc in Hin. destruct Hin; congruence.
Qed.

Lemma read_bytes_buffer (bytes : list Byte.byte) (buffer : str) (p : nat) :
  str_in TERMINATOR buffer = false ->
  ended (read_bytes loads post bytes buffer p) = Running ->
  str_in TERMINATOR (Sse.buffer (read_bytes loads post bytes buffer p)) = false.
Proof.
  revert buffer p. induction bytes as [| b bytes IH]; intros buffer p Hbuf.
  - intros _. exact Hbuf.
  - cbn [read_bytes].
    destruct (ended (read_byte loads post buffer b p)) eqn:He;
      try (intros H; rewrite He in H; discriminate H).
    cbn [Sse.after ended Sse.buffer]. apply IH.
    now apply read_byte_buffer.
Qed.

(** C9. Let the listener have read [bytes] and be about to read [b].  Its
    buffer holds no terminator.  If the buffer with [b] does not end with
    the terminator, nothing is extracted and the buffer keeps [b].  If it
    does, the frame is extracted: the terminator closes the buffer and
    occurs nowhere before, so what is left for the next frame is empty, and
    that is what the buffer is reset to. *)
Theorem buffer_empty_after_extraction
    (bytes : list Byte.byte) (b : Byte.byte) (p q : nat)
    (Hrun : ended (read_bytes loads post bytes [] p) = Running) :
  let buffer := Sse.buffer (read_bytes loads post bytes [] p) in
  str_in TERMINATOR buffer = false
  /\ (endswith (buffer ++ decode b) TERMINATOR = false ->
      read_byte loads post buffer b q
      = Sse.Run [] (buffer ++ decode b) Running)
  /\ (endswith (buffer ++ decode b) TERMINATOR = true ->
      after_terminator (buffer ++ decode b) = Some []
      /\ (ended (read_byte loads post buffer b q) = Running ->
          Sse.buffer (read_byte loads post buffer b q) = [])).
Proof.
  intros buffer.
  assert (Hbuf : str_in TERMINATOR buffer = false).
  { apply read_bytes_buffer; [reflexivity | exact Hrun]. }
  split; [exact Hbuf | split].
  - intros Hend. unfold read_byte. now rewrite Hend.
  - intros Hend. split.
    + destruct (decode_single b) as [c Hc]. rewrite Hc in *.
      apply endswith_spec in Hend. destruct Hend as [a Ha].
      unfold TERMINATOR in Ha.
      change (a ++ [NL; NL]) with (a ++ [NL] ++ [NL]) in Ha.
      rewrite app_assoc in Ha. apply app_inj_tail in Ha.
      destruct Ha as [Ha ->]. rewrite Ha in Hbuf |- *.
      rewrite <- app_assoc. now apply after_terminator_at_end.
    + unfold read_byte. rewrite Hend.
      destruct (for_lines loads post _ q) as [tr o].
      destruct o; cbn [ended Sse.buffer]; try discriminate. reflexivity.
Qed.

End FrameBuffer.

Section FrameBufferExamples.

Import Sse.

Lemma buffer_empty_after_extraction_witness :
  after_terminator
    (Sse.buffer (read_bytes Json.loads (fun _ => post_ok)
                   (Json.wire_bytes "data: {'from':'user','text':'a'}||data: 1|")
                   [] 1)
     ++ decode Byte.x0a)
  = Some [].
Proof.
  refine (proj1 (proj2 (proj2 (@buffer_empty_after_extraction Json.loads
            (fun _ => post_ok)
            (Json.wire_bytes "data: {'from':'user','text':'a'}||data: 1|")
            Byte.x0a 1 2 eq_refl)) eq_refl)).
Defined.

End FrameBufferExamples.

(** * Further properties *)

(** ** Exchanges *)

Section Conversations.

Variable who : option str.
Variable stop : outcome.

Hypothesis stop_not_running : stop <> Running.
Hypothesis stop_not_crash : forall e, stop <> Crashed e.

Local Abbreviation conv := (conversation who stop).
Local Abbreviation bye := (PostMessage FAREWELL who).

Lemma str_eqb_eq (a b : str) : str_eqb a b = true <-> a = b.
Proof.
  revert b. induction a as [| x a IH]; intros [| y b]; cbn [str_eqb];
    try (split; [discriminate | intros H; discriminate H]).
  - split; reflexivity.
  - rewrite andb_true_iff, N.eqb_eq, IH. split.
    + now intros [-> ->].
    + intros H. injection H as -> ->. now split.
Qed.

Lemma from_user_spec (msg : json) :
  from_user msg = true <-> subscript msg (py "from") = Ok (JStr (py "user")).
Proof.
  unfold from_user. destruct (subscript msg (py "from")) as [v | e].
  - destruct v; cbn [eq_str]; try (split; [discriminate | intros H; discriminate H]).
    rewrite str_eqb_eq. split; [now intros -> | intros H; now injection H].
  - split; [discriminate | intros H; discriminate H].
Qed.

Lemma echo_not_farewell (t : str) (a b : option str) :
  PostMessage (py "Received: " ++ t) a <> PostMessage FAREWELL b.
Proof. intros H. injection H as H _. discriminate H. Qed.

Lemma posted_cases (answer : reply) :
  posted answer = Ok (api_post answer) \/ posted answer = Raise AttributeError.
Proof.
  destruct (accepted answer) eqn:H.
  - left. now apply posted_accepted.
  - right. now apply posted_refused.
Qed.

Lemma conv_app (tr tr' : list io) (o : outcome) :
  conv tr Running -> conv tr' o -> conv (tr ++ tr') o.
Proof.
  intros H. remember Running as r eqn:Hr. revert Hr.
  induction H as [o' Ho | d Hd | d t Hd Ht | d t Hd Ht Hb
                 | d t tr0 o' Hd Ht Hb H IH];
    intros Hr H'.
  - exact H'.
  - discriminate Hr.
  - discriminate Hr.
  - contradiction.
  - cbn [app]. eapply conv_echo; eauto.
Qed.

Lemma conv_talk (tr : list io) (o : outcome) : conv tr o -> talk tr = tr.
Proof.
  induction 1 as [| | | | d t tr o Hd Ht Hb H IH]; try reflexivity.
  unfold talk in *. cbn [filter is_reply_event]. now rewrite IH.
Qed.

(** Only user messages are dispatched. *)
Lemma conv_dispatched (tr : list io) (o : outcome) :
  conv tr o -> Forall (fun d => from_user d = true) (dispatched tr).
Proof.
  induction 1 as [| d Hd | d t Hd Ht | d t Hd Ht Hb | d t tr o Hd Ht Hb H IH];
    cbn [dispatched]; repeat constructor; auto.
Qed.

(** Each dispatched message is answered once, in turn. *)
Lemma conv_sent (tr : list io) (o : outcome) :
  conv tr o -> (forall e, o <> Crashed e) ->
  sent tr = List.map reply_text (dispatched tr).
Proof.
  induction 1 as [| d Hd | d t Hd Ht | d t Hd Ht Hb | d t tr o Hd Ht Hb H IH];
    intros Ho.
  - reflexivity.
  - now contradiction (Ho AttributeError).
  - now contradiction (Ho AttributeError).
  - cbn [sent dispatched List.map]. unfold reply_text. now rewrite Ht, Hb.
  - cbn [sent dispatched List.map]. rewrite IH by assumption.
    unfold reply_text at 2. now rewrite Ht, Hb.
Qed.

Lemma conv_sent_length (tr : list io) (o : outcome) :
  conv tr o ->
  (List.length (sent tr) <= List.length (dispatched tr)
                         <= S (List.length (sent tr)))%nat.
Proof.
  induction 1 as [| d Hd | d t Hd Ht | d t Hd Ht Hb | d t tr o Hd Ht Hb H IH];
    cbn [sent dispatched List.length]; lia.
Qed.

(** A run that stops has sent the farewell; the farewell is sent once, as
    the last event, and the run then stops, unless the answer to that post
    is no object. *)
Lemma conv_farewell (tr : list io) (o : outcome) :
  conv tr o ->
  (o = stop -> In bye tr)
  /\ (In bye tr ->
      (o = stop \/ o = Crashed AttributeError)
      /\ exists tr', tr = tr' ++ [bye] /\ ~ In bye tr').
Proof.
  induction 1 as [o Ho | d Hd | d t Hd Ht | d t Hd Ht Hb
                 | d t tr o Hd Ht Hb H IH].
  - split; [contradiction | intros []].
  - split.
    + intros Hs. symmetry in Hs. now apply stop_not_crash in Hs.
    + intros [Hf | []]. discriminate Hf.
  - split.
    + intros Hs. symmetry in Hs. now apply stop_not_crash in Hs.
    + intros [Hf | [Hf | []]]; [discriminate Hf |].
      split; [now right |]. exists [Dispatch d]. rewrite Hf.
      split; [reflexivity |]. intros [Hf' | []]. discriminate Hf'.
  - split.
    + intros _. right. now left.
    + intros _. split; [now left |]. exists [Dispatch d].
      split; [reflexivity |]. intros [Hf | []]. discriminate Hf.
  - destruct IH as [IH1 IH2]. split.
    + intros Hs. right. right. now apply IH1.
    + intros [Hf | [Hf | Hf]].
      * discriminate Hf.
      * now apply echo_not_farewell in Hf.
      * destruct (IH2 Hf) as (Ho & tr' & -> & Hn). split; [exact Ho |].
        exists (Dispatch d :: PostMessage (py "Received: " ++ t) who :: tr').
        split; [reflexivity |].
        intros [Hf' | [Hf' | Hf']].
        -- discriminate Hf'.
        -- now apply echo_not_farewell in Hf'.
        -- now apply Hn.
Qed.

End Conversations.

(** ** Every polling run *)

Section PollingRuns.

Import Poll.

Variable name : str.
Variable fetch : nat -> json -> reply.
Variable post : nat -> reply.

Local Abbreviation conv := (conversation (Some name) Returned).
Local Abbreviation bye := (PostMessage FAREWELL (Some name)).

Lemma returned_not_running : Returned <> Running.
Proof. discriminate. Qed.

Lemma returned_not_crash (e : exn) : Returned <> Crashed e.
Proof. discriminate. Qed.

Lemma talk_app (a b : list io) : talk (a ++ b) = talk a ++ talk b.
Proof. apply filter_app. Qed.

Lemma dispatched_talk (tr : list io) : dispatched (talk tr) = dispatched tr.
Proof.
  unfold talk. induction tr as [| x tr IH]; [reflexivity |].
  destruct x; cbn [filter is_reply_event dispatched]; now rewrite ?IH.
Qed.

Lemma sent_talk (tr : list io) : sent (talk tr) = sent tr.
Proof.
  unfold talk. induction tr as [| x tr IH]; [reflexivity |].
  destruct x; cbn [filter is_reply_event sent]; now rewrite ?IH.
Qed.

Lemma user_messages_from_user (items kept : list json) :
  user_messages items = Ok kept ->
  Forall (fun m => from_user m = true) kept.
Proof.
  revert kept. induction items as [| m items IH]; intros kept; cbn [user_messages].
  - intros H. injection H as <-. constructor.
  - destruct (subscript m (py "from")) as [v | e] eqn:Hv; cbn [bind];
      [| discriminate].
    destruct (user_messages items) as [kept' | e]; cbn [bind]; [| discriminate].
    destruct (eq_str v (py "user")) eqn:Heq; intros H; injection H as <-.
    + constructor; [| now apply IH]. unfold from_user. now rewrite Hv.
    + now apply IH.
Qed.

Lemma poll_messages_from_user (answer : reply) (kept : list json) :
  poll_messages answer = Ok kept ->
  Forall (fun m => from_user m = true) kept.
Proof.
  unfold poll_messages.
  destruct (get (api_get answer) (py "success") JNull) as [v | e];
    cbn [bind]; [| discriminate].
  destruct (negb (truthy v)).
  - intros H. injection H as <-. constructor.
  - destruct (get (api_get answer) (py "messages") (JList [])) as [ms | e];
      cbn [bind]; [| discriminate].
    destruct (iterate ms) as [items | e]; cbn [bind]; [| discriminate].
    apply user_messages_from_user.
Qed.

Lemma for_msgs_conv (msgs : list json) (last_ts : json) (p : nat) :
  Forall (fun m => from_user m = true) msgs ->
  conv (trace (for_msgs post name msgs last_ts p))
       (ended (for_msgs post name msgs last_ts p)).
Proof.
  intros H. revert last_ts p.
  induction H as [| m msgs Hm _ IH]; intros last_ts p.
  - apply conv_nil. discriminate.
  - cbn [for_msgs].
    destruct (subscript m (py "timestamp")) as [ts | e];
      [| apply conv_nil; discriminate].
    destruct (subscript m (py "text")) as [text | e] eqn:Ht;
      [| apply conv_nil; discriminate].
    destruct text as [| | | | t | |]; try (now apply conv_lost).
    unfold send_message.
    destruct (says_bye (lower t)) eqn:Hb;
      destruct (posted_cases (post p)) as [-> | ->]; cbn [trace ended].
    + now apply conv_bye with (t := t).
    + replace FAREWELL with (reply_text m)
        by (unfold reply_text; now rewrite Ht, Hb).
      now apply conv_refused with (t := t).
    + cbn [after trace ended app]. now apply conv_echo.
    + replace (py "Received: " ++ t) with (reply_text m)
        by (unfold reply_text; now rewrite Ht, Hb).
      now apply conv_refused with (t := t).
Qed.

Lemma while_true_conv (cycles k : nat) (last_ts : json) (p : nat) :
  conv (talk (trace (while_true name fetch post cycles k last_ts p)))
       (ended (while_true name fetch post cycles k last_ts p)).
Proof.
  revert k last_ts p. induction cycles as [| n IH]; intros k last_ts p.
  - apply conv_nil. discriminate.
  - cbn [while_true].
    destruct (poll_messages (fetch k last_ts)) as [msgs | e] eqn:Hp.
    + pose proof (for_msgs_conv last_ts p (poll_messages_from_user _ Hp)) as Hb.
      destruct (ended (for_msgs post name msgs last_ts p)) eqn:He;
        cbn [after trace ended]; rewrite ?He, ?talk_app, (conv_talk Hb);
        cbn [talk filter is_reply_event app]; try exact Hb.
      eapply conv_app; [apply returned_not_running | exact Hb | apply IH].
    + apply conv_nil. discriminate.
Qed.

(** Where every post is answered with an object, the farewell ends the
    batch. *)
Lemma for_msgs_accepted (msgs : list json) (last_ts : json) (p : nat) :
  (forall i, accepted (post i) = true) ->
  In bye (trace (for_msgs post name msgs last_ts p)) ->
  ended (for_msgs post name msgs last_ts p) = Returned.
Proof.
  intros Hacc. revert last_ts p.
  induction msgs as [| m msgs IH]; intros last_ts p; [intros [] |].
  cbn [for_msgs].
  destruct (subscript m (py "timestamp")) as [ts | e]; [| intros []].
  destruct (subscript m (py "text")) as [text | e]; [| intros []].
  destruct text as [| | | | t | |];
    try (intros [Hf | []]; discriminate Hf).
  unfold send_message. rewrite (posted_accepted _ (Hacc p)).
  destruct (says_bye (lower t)); [reflexivity |].
  cbn [after trace ended app].
  intros [Hf | [Hf | Hf]].
  - discriminate Hf.
  - now apply echo_not_farewell in Hf.
  - now apply IH.
Qed.

(** The farewell, if sent, is the last event of the run. *)
Lemma while_true_farewell_last (cycles k : nat) (last_ts : json) (p : nat) :
  In bye (trace (while_true name fetch post cycles k last_ts p)) ->
  exists tr, trace (while_true name fetch post cycles k last_ts p)
             = tr ++ [bye].
Proof.
  revert k last_ts p. induction cycles as [| n IH]; intros k last_ts p;
    [intros [] |].
  cbn [while_true].
  destruct (poll_messages (fetch k last_ts)) as [msgs | e] eqn:Hp.
  - pose proof (for_msgs_conv last_ts p (poll_messages_from_user _ Hp)) as Hb.
    pose proof (conv_farewell returned_not_crash Hb) as [_ Hf].
    assert (Hstop : forall o,
      ended (for_msgs post name msgs last_ts p) = o -> o <> Running ->
      In bye (trace (after [Sleep POLL_INTERVAL; GetMessages last_ts]
                       (for_msgs post name msgs last_ts p))) ->
      exists tr, trace (after [Sleep POLL_INTERVAL; GetMessages last_ts]
                          (for_msgs post name msgs last_ts p)) = tr ++ [bye]).
    { intros o _ _ Hin. cbn [after trace] in Hin |- *.
      apply in_app_or in Hin. destruct Hin as [[Hin | [Hin | []]] | Hin];
        try discriminate Hin.
      destruct (Hf Hin) as (_ & tr' & -> & _).
      eexists. now rewrite app_assoc. }
    destruct (ended (for_msgs post name msgs last_ts p)) eqn:He;
      try (apply (Hstop _ eq_refl); discriminate).
    cbn [after trace]. intros Hin.
    apply in_app_or in Hin. destruct Hin as [Hin | Hin].
    + apply in_app_or in Hin. destruct Hin as [[Hin | [Hin | []]] | Hin];
        try discriminate Hin.
      destruct (Hf Hin) as ([Ho | Ho] & _); discriminate Ho.
    + destruct (IH _ _ _ Hin) as [tr ->]. eexists. now rewrite !app_assoc.
  - intros [Hin | [Hin | []]]; discriminate Hin.
Qed.

Lemma while_true_accepted (cycles k : nat) (last_ts : json) (p : nat) :
  (forall i, accepted (post i) = true) ->
  In bye (trace (while_true name fetch post cycles k last_ts p)) ->
  ended (while_true name fetch post cycles k last_ts p) = Returned.
Proof.
  intros Hacc. revert k last_ts p.
  induction cycles as [| n IH]; intros k last_ts p; [intros [] |].
  cbn [while_true].
  destruct (poll_messages (fetch k last_ts)) as [msgs | e] eqn:Hp.
  - pose proof (@for_msgs_accepted msgs last_ts p Hacc) as Hb.
    destruct (ended (for_msgs post name msgs last_ts p)) eqn:He;
      cbn [after trace ended]; rewrite ?He; intros Hin;
      apply in_app_or in Hin.
    + destruct Hin as [Hin | Hin]; [| now apply IH in Hin].
      apply in_app_or in Hin. destruct Hin as [[Hin | [Hin | []]] | Hin];
        try discriminate Hin.
      now apply Hb in Hin.
    + reflexivity.
    + destruct Hin as [[Hin | [Hin | []]] | Hin]; try discriminate Hin.
      now apply Hb in Hin.
    + destruct Hin as [[Hin | [Hin | []]] | Hin]; try discriminate Hin.
      now apply Hb in Hin.
  - intros [Hin | [Hin | []]]; discriminate Hin.
Qed.

(** X1. Whatever the remote answers, every message the polling loop
    dispatches is one whose [from] field is the string [user]. *)
Theorem poll_dispatches_only_user_messages
    (cycles k : nat) (last_ts : json) (p : nat) :
  Forall (fun d => subscript d (py "from") = Ok (JStr (py "user")))
         (dispatched (trace (while_true name fetch post cycles k last_ts p))).
Proof.
  pose proof (conv_dispatched (while_true_conv cycles k last_ts p)) as H.
  rewrite dispatched_talk in H.
  eapply Forall_impl; [| exact H]. intros d. apply from_user_spec.
Qed.

(** X2. Whatever the remote answers, the polling loop never sends more
    messages than it has dispatched, and is at most one answer behind;
    unless it crashed, its posts are the answers to the dispatched
    messages, one each and in the same order: the farewell for a
    terminating text, the echo otherwise. *)
Theorem poll_answers_each_message
    (cycles k : nat) (last_ts : json) (p : nat) :
  let r := while_true name fetch post cycles k last_ts p in
  (List.length (sent (trace r)) <= List.length (dispatched (trace r))
                                <= S (List.length (sent (trace r))))%nat
  /\ ((forall e, ended r <> Crashed e) ->
      sent (trace r) = List.map reply_text (dispatched (trace r))).
Proof.
  intros r. pose proof (while_true_conv cycles k last_ts p) as H. fold r in H.
  split.
  - pose proof (conv_sent_length H) as Hl.
    now rewrite dispatched_talk, sent_talk in Hl.
  - intros Ho. pose proof (conv_sent H Ho) as Hs.
    now rewrite dispatched_talk, sent_talk in Hs.
Qed.

(** X3. Whatever the remote answers, a polling loop that has returned has
    sent the farewell.  A farewell that is sent is the last thing the loop
    did, it was sent once, and the loop then returned, or crashed with
    [AttributeError] because the answer to that post was no object.  Where
    every post is answered with an object, the loop has returned exactly
    when it has sent the farewell. *)
Theorem poll_farewell_ends_run (cycles k : nat) (last_ts : json) (p : nat) :
  let r := while_true name fetch post cycles k last_ts p in
  (ended r = Returned -> In bye (trace r))
  /\ (In bye (trace r) ->
      (ended r = Returned \/ ended r = Crashed AttributeError)
      /\ exists tr, trace r = tr ++ [bye] /\ ~ In bye tr)
  /\ ((forall i, accepted (post i) = true) ->
      (ended r = Returned <-> In bye (trace r))).
Proof.
  intros r.
  assert (Hin : forall tr, In bye (talk tr) <-> In bye tr).
  { intros tr. unfold talk. rewrite filter_In. tauto. }
  destruct (conv_farewell returned_not_crash
              (while_true_conv cycles k last_ts p)) as [Hret Hlast].
  fold r in Hret, Hlast.
  assert (H1 : ended r = Returned -> In bye (trace r)).
  { intros Hr. apply Hin. now apply Hret. }
  split; [exact H1 | split].
  - intros Hbye. destruct (Hlast (proj2 (Hin _) Hbye)) as (Ho & t' & Ht & Hn).
    split; [exact Ho |].
    destruct (while_true_farewell_last cycles k last_ts p Hbye) as [tr Htr].
    fold r in Htr. exists tr. split; [exact Htr |].
    intros Hb. apply Hn. rewrite Htr, talk_app in Ht.
    cbn [talk filter is_reply_event] in Ht.
    apply app_inj_tail in Ht. destruct Ht as [<- _]. now apply Hin.
  - intros Hacc. split; [exact H1 |].
    now apply while_true_accepted.
Qed.

End PollingRuns.

Section PollingRunExamples.

Import Poll.

Lemma poll_answers_each_message_witness :
  sent (trace (while_true (py "Agent")
                 (remote_of [Message (py "user") (py "status?") 11;
                             Message (py "agent") (py "noted") 12;
                             Message (py "user") (py "thanks") 13])
                 (fun _ => post_ok) 2 0 (JInt 10) 2))
  = [py "Received: status?"; py "Received: thanks"].
Proof.
  refine (proj2 (@poll_answers_each_message (py "Agent")
            (remote_of [Message (py "user") (py "status?") 11;
                        Message (py "agent") (py "noted") 12;
                        Message (py "user") (py "thanks") 13])
            (fun _ => post_ok) 2 0 (JInt 10) 2) _).
  intros e. vm_compute. discriminate.
Defined.

Lemma poll_farewell_ends_run_witness :
  let r := while_true (py "Agent")
             (remote_of [Message (py "user") (py "status?") 11;
                         Message (py "user") (py "bye for now") 13])
             (fun _ => post_ok) 2 0 (JInt 10) 2 in
  (exists tr,
      trace r = tr ++ [PostMessage FAREWELL (Some (py "Agent"))]
      /\ ~ In (PostMessage FAREWELL (Some (py "Agent"))) tr)
  /\ (ended r = Returned
      <-> In (PostMessage FAREWELL (Some (py "Agent"))) (trace r)).
Proof.
  intros r.
  destruct (@poll_farewell_ends_run (py "Agent")
              (remote_of [Message (py "user") (py "status?") 11;
                          Message (py "user") (py "bye for now") 13])
              (fun _ => post_ok) 2 0 (JInt 10) 2) as (_ & Hlast & Hiff).
  split.
  - apply Hlast. vm_compute. tauto.
  - apply Hiff. intros i. reflexivity.
Defined.

End PollingRunExamples.

Section PollingPace.

Import Poll.

Variable name : str.

Lemma conv_quiet (who : option str) (stop : outcome) (tr : list io)
    (o : outcome) :
  conversation who stop tr o -> forallb is_reply_event tr = true.
Proof.
  induction 1 as [| | | | d t tr o Hd Ht Hb H IH]; try reflexivity.
  cbn [forallb is_reply_event]. exact IH.
Qed.

Lemma paced_quiet_app (tr rest : list io) :
  forallb is_reply_event tr = true -> paced (tr ++ rest) = paced rest.
Proof.
  induction tr as [| x tr IH]; [reflexivity |].
  cbn [forallb]. rewrite andb_true_iff. intros [Hx Htr].
  destruct x; try discriminate Hx; cbn [app paced]; now apply IH.
Qed.

Lemma while_true_paced (fetch : nat -> json -> reply) (post : nat -> reply)
    (cycles k : nat) (last_ts : json) (p : nat) :
  paced (trace (while_true name fetch post cycles k last_ts p)) = true.
Proof.
  revert k last_ts p. induction cycles as [| n IH]; intros k last_ts p;
    [reflexivity |].
  cbn [while_true].
  destruct (poll_messages (fetch k last_ts)) as [msgs | e] eqn:Hp;
    [| reflexivity].
  pose proof (conv_quiet (for_msgs_conv name post last_ts p
                            (poll_messages_from_user _ Hp))) as Hq.
  destruct (ended (for_msgs post name msgs last_ts p));
    cbn [after trace app paced]; cbn [Z.eqb POLL_INTERVAL Pos.eqb andb];
    rewrite ?paced_quiet_app by exact Hq; try reflexivity.
  - apply IH.
  - rewrite <- (app_nil_r (trace _)). now rewrite paced_quiet_app.
  - rewrite <- (app_nil_r (trace _)). now rewrite paced_quiet_app.
  - rewrite <- (app_nil_r (trace _)). now rewrite paced_quiet_app.
Qed.

(** X4. Whatever the status query and the remote answer, and however long
    the script runs, it never fetches messages without having slept
    [POLL_INTERVAL] seconds immediately before: the polling rate is at most
    one request per interval. *)
Theorem poll_never_fetches_without_sleeping (e : env) (cycles : nat) :
  paced (trace (main name e cycles)) = true.
Proof.
  unfold main. destruct (check_status (status_answer e)) as [[|] | x];
    try reflexivity.
  unfold register, send_message.
  destruct (posted (post e 0)); [| reflexivity].
  destruct (posted (post e 1)); [| reflexivity].
  cbn [after trace app paced]. apply while_true_paced.
Qed.

End PollingPace.

(** ** Malformed traffic *)

Section Malformed.

Import Poll.

Variable name : str.
Variable post : nat -> reply.

Local Abbreviation echo := (Poll.echo name).

Lemma user_messages_no_from (good rest : list json) (d : list (str * json)) :
  Forall (fun m => exists v, subscript m (py "from") = Ok v) good ->
  lookup (py "from") d = None ->
  user_messages (good ++ JDict d :: rest) = Raise KeyError.
Proof.
  intros Hgood Hd. induction Hgood as [| m good [v Hv] _ IH].
  - cbn [app user_messages subscript]. now rewrite Hd.
  - cbn [app user_messages]. rewrite Hv. cbn [bind]. now rewrite IH.
Qed.

(** X5. One item without a [from] field spoils the whole answer: if a
    successful answer lists such an item, after any number of items that
    have the field, [poll_messages] raises [KeyError]; the script ends
    with that exception right after the request, and no message of the
    answer is dispatched or answered, not even those listed before the
    bad item. *)
Theorem item_without_from_discards_batch
    (fetch : nat -> json -> reply) (cycles k : nat) (last_ts success : json)
    (p : nat)
    (fields d : list (str * json)) (good rest : list json)
    (Hfetch : fetch k last_ts = Answer (JDict fields))
    (Hsuccess : lookup (py "success") fields = Some success)
    (Htruthy : truthy success = true)
    (Hitems : lookup (py "messages") fields
              = Some (JList (good ++ JDict d :: rest)))
    (Hgood : Forall (fun m => exists v, subscript m (py "from") = Ok v) good)
    (Hd : lookup (py "from") d = None) :
  poll_messages (fetch k last_ts) = Raise KeyError
  /\ while_true name fetch post (S cycles) k last_ts p
     = Poll.Run [Sleep POLL_INTERVAL; GetMessages last_ts] last_ts
         (Crashed KeyError).
Proof.
  assert (Hp : poll_messages (fetch k last_ts) = Raise KeyError).
  { rewrite Hfetch. unfold poll_messages, api_get, get.
    rewrite Hsuccess. cbn [bind]. rewrite Htruthy. cbn [negb].
    rewrite Hitems. cbn [bind iterate].
    now apply user_messages_no_from. }
  split; [exact Hp |]. cbn [while_true]. now rewrite Hp.
Qed.

(** X6. A user message that is not well formed ends the script where the
    loop trips over it, after the messages [before] it have been answered,
    the posts of those answers being answered with objects.  Without a
    [timestamp] it raises [KeyError] untouched, the cursor staying where
    the earlier messages left it.  With a timestamp but no [text] it raises
    [KeyError] after the cursor has moved to its timestamp, and it is
    neither shown nor answered.  With a [text] that is no string it is
    shown, then [lower] raises [AttributeError], and it is not answered. *)
Theorem malformed_message_ends_run
    (before : list message) (d : list (str * json)) (rest : list json)
    (last_ts : json) (p : nat)
    (Hbefore : Forall (fun m => terminating m = false) before)
    (Hposts : answered post p (List.length before)) :
  let reached := last (List.map (fun m => JInt (timestamp m)) before) last_ts in
  let batch := List.map encode before ++ JDict d :: rest in
  (lookup (py "timestamp") d = None ->
   for_msgs post name batch last_ts p
   = Poll.Run (flat_map echo before) reached (Crashed KeyError))
  /\ (forall ts,
        lookup (py "timestamp") d = Some ts ->
        lookup (py "text") d = None ->
        for_msgs post name batch last_ts p
        = Poll.Run (flat_map echo before) ts (Crashed KeyError))
  /\ (forall ts v,
        lookup (py "timestamp") d = Some ts ->
        lookup (py "text") d = Some v ->
        (forall t, v <> JStr t) ->
        for_msgs post name batch last_ts p
        = Poll.Run (flat_map echo before ++ [Dispatch (JDict d)]) ts
            (Crashed AttributeError)).
Proof.
  intros reached batch. unfold batch.
  rewrite (@for_msgs_echo name post _ _ _ _ Hbefore Hposts). fold reached.
  cbn [for_msgs subscript]. split; [| split].
  - intros ->. unfold after. cbn [trace cursor ended]. now rewrite app_nil_r.
  - intros ts -> ->. unfold after. cbn [trace cursor ended].
    now rewrite app_nil_r.
  - intros ts v -> -> Hv. destruct v as [| | | | t | |];
      try reflexivity. now contradiction (Hv t).
Qed.

End Malformed.

Section MalformedExamples.

Import Poll.

Lemma item_without_from_discards_batch_witness :
  while_true (py "Agent")
    (fun _ _ =>
       Answer (JDict [(py "success", JBool true);
                      (py "messages",
                       JList [encode (Message (py "user") (py "hello") 11);
                              JDict [(py "text", JStr (py "anonymous"))]])]))
    (fun _ => post_ok) 3 0 (JInt 10) 2
  = Poll.Run [Sleep 2; GetMessages (JInt 10)] (JInt 10) (Crashed KeyError).
Proof.
  refine (proj2 (@item_without_from_discards_batch (py "Agent")
            (fun _ => post_ok)
            (fun _ _ =>
               Answer (JDict [(py "success", JBool true);
                              (py "messages",
                               JList [encode (Message (py "user") (py "hello") 11);
                                      JDict [(py "text", JStr (py "anonymous"))]])]))
            2 0 (JInt 10) (JBool true) 2
            [(py "success", JBool true);
             (py "messages",
              JList [encode (Message (py "user") (py "hello") 11);
                     JDict [(py "text", JStr (py "anonymous"))]])]
            [(py "text", JStr (py "anonymous"))]
            [encode (Message (py "user") (py "hello") 11)] []
            eq_refl eq_refl eq_refl eq_refl _ eq_refl)).
  constructor; [| constructor]. eexists. reflexivity.
Defined.

Lemma malformed_message_ends_run_witness :
  for_msgs (fun _ => post_ok) (py "Agent")
    [encode (Message (py "user") (py "hello") 11);
     JDict [(py "from", JStr (py "user")); (py "timestamp", JInt 12)]]
    (JInt 10) 2
  = Poll.Run [Dispatch (encode (Message (py "user") (py "hello") 11));
              PostMessage (py "Received: hello") (Some (py "Agent"))]
      (JInt 12) (Crashed KeyError).
Proof.
  assert (Hbefore : Forall (fun m => terminating m = false)
                      [Message (py "user") (py "hello") 11]).
  { constructor; [reflexivity | constructor]. }
  assert (Hposts : answered (fun _ => post_ok) 2
                     (List.length [Message (py "user") (py "hello") 11])).
  { intros i _. reflexivity. }
  exact (proj1 (proj2 (@malformed_message_ends_run (py "Agent")
           (fun _ => post_ok)
           [Message (py "user") (py "hello") 11]
           [(py "from", JStr (py "user")); (py "timestamp", JInt 12)]
           [] (JInt 10) 2 Hbefore Hposts)) (JInt 12) eq_refl eq_refl).
Defined.

End MalformedExamples.

(** ** The status query *)

Section Status.

Lemma check_status_ready (answer : reply) :
  check_status answer = Ok true <-> ready answer.
Proof.
  unfold check_status, ready. split.
  - destruct (api_get answer) as [| | | | | | fields]; try discriminate.
    unfold get, subscript. cbn [bind].
    destruct (lookup (py "success") fields) as [success |] eqn:Hs;
      [| discriminate].
    destruct (truthy success) eqn:Hts; [| discriminate]. cbn [negb].
    destruct (lookup (py "status") fields) as [status |] eqn:Hst;
      [| discriminate]. cbn [bind].
    destruct status as [| | | | | | status]; try discriminate. cbn [bind].
    destruct (lookup (py "filePath") status) as [filePath |] eqn:Hf;
      [| discriminate].
    destruct (truthy filePath) eqn:Htf; [| discriminate]. cbn [negb bind].
    destruct (lookup (py "totalLines") status) as [totalLines |] eqn:Ht;
      [| discriminate].
    intros _. now exists fields, success, status, filePath, totalLines.
  - intros (fields & success & status & filePath & totalLines
            & -> & Hs & Hts & Hst & Hf & Htf & Ht).
    unfold get, subscript. cbn [bind]. rewrite Hs, Hts. cbn [negb].
    rewrite Hst. cbn [bind]. rewrite Hf, Htf. cbn [negb bind].
    now rewrite Ht.
Qed.

(** X7. [check_status] returns [True] exactly when the answer is a
    dictionary with a truthy [success] whose [status] is a dictionary with
    a truthy [filePath] and a [totalLines] field.  In that case the polling
    script starts with the status request and the registration.  If the
    registration is answered with an object, the hello message follows, and
    if that is answered with an object too, the loop starts; an answer that
    is no object ends the script with [AttributeError] right after the post
    it answers, the cursor being the clock at start-up.  In every other
    case the status request is all the script does. *)
Theorem startup_requires_ready (name : str) (e : Poll.env) (cycles : nat) :
  let hello :=
    PostMessage (py "Hello! " ++ name ++ py " connected via polling.")
                (Some name) in
  (check_status (Poll.status_answer e) = Ok true
   <-> ready (Poll.status_answer e))
  /\ (ready (Poll.status_answer e) ->
      (exists rest,
          Poll.trace (Poll.main name e cycles)
          = [GetStatus; PostRegister name] ++ rest)
      /\ (accepted (Poll.post e 0) = false ->
          Poll.main name e cycles
          = Poll.Run [GetStatus; PostRegister name] (JInt (Poll.now e))
              (Crashed AttributeError))
      /\ (accepted (Poll.post e 0) = true ->
          accepted (Poll.post e 1) = false ->
          Poll.main name e cycles
          = Poll.Run [GetStatus; PostRegister name; hello]
              (JInt (Poll.now e)) (Crashed AttributeError))
      /\ (accepted (Poll.post e 0) = true ->
          accepted (Poll.post e 1) = true ->
          Poll.main name e cycles
          = Poll.after [GetStatus; PostRegister name; hello]
              (Poll.while_true name (Poll.fetch e) (Poll.post e) cycles 0
                 (JInt (Poll.now e)) 2)))
  /\ (~ ready (Poll.status_answer e) ->
      Poll.trace (Poll.main name e cycles) = [GetStatus]).
Proof.
  intros hello. split; [apply check_status_ready | split].
  - intros H. apply check_status_ready in H. unfold Poll.main. rewrite H.
    unfold Poll.register, Poll.send_message.
    split; [| split; [| split]].
    + destruct (posted (Poll.post e 0)); [| now exists []].
      destruct (posted (Poll.post e 1)); eexists; reflexivity.
    + intros H0. now rewrite (posted_refused _ H0).
    + intros H0 H1.
      now rewrite (posted_accepted _ H0), (posted_refused _ H1).
    + intros H0 H1.
      now rewrite (posted_accepted _ H0), (posted_accepted _ H1).
  - intros H. unfold Poll.main.
    destruct (check_status (Poll.status_answer e)) as [[|] | x] eqn:Hc;
      try reflexivity.
    now apply check_status_ready in Hc.
Qed.

(** X8. A status that names a file but has no [totalLines] field, or an
    answer that reports success but carries no [status], makes
    [check_status] raise [KeyError]; both scripts end with that exception
    after the status request, before anything is posted. *)
Theorem incomplete_status_crashes
    (name : str) (e : Poll.env) (cycles : nat)
    (conn : option (list (list Byte.byte)))
    (loads : str -> Sse.decoded) (post : nat -> reply)
    (fields : list (str * json)) (success : json)
    (Hanswer : Poll.status_answer e = Answer (JDict fields))
    (Hsuccess : lookup (py "success") fields = Some success)
    (Htruthy : truthy success = true)
    (Hstatus :
       lookup (py "status") fields = None
       \/ exists status filePath,
            lookup (py "status") fields = Some (JDict status)
            /\ lookup (py "filePath") status = Some filePath
            /\ truthy filePath = true
            /\ lookup (py "totalLines") status = None) :
  check_status (Poll.status_answer e) = Raise KeyError
  /\ Poll.main name e cycles = Poll.Run [GetStatus] JNull (Crashed KeyError)
  /\ Sse.main loads post name (Poll.status_answer e) conn
     = Sse.Run [GetStatus] [] (Crashed KeyError).
Proof.
  assert (Hc : check_status (Poll.status_answer e) = Raise KeyError).
  { rewrite Hanswer. unfold check_status, api_get, get, subscript.
    cbn [bind]. rewrite Hsuccess, Htruthy. cbn [negb].
    destruct Hstatus as [-> | (status & filePath & -> & Hf & Htf & Ht)];
      [reflexivity |].
    cbn [bind]. rewrite Hf, Htf. cbn [negb bind]. now rewrite Ht. }
  split; [exact Hc | split].
  - unfold Poll.main. now rewrite Hc.
  - unfold Sse.main. now rewrite Hc.
Qed.

End Status.

Section StatusExamples.

Lemma startup_requires_ready_witness :
  Poll.trace
    (Poll.main (py "Agent")
       (Poll.Env (Answer (JDict [(py "success", JBool true);
                                 (py "status", JDict [(py "totalLines", JInt 0)])]))
                 10 (fun _ _ => Failed (py "down")) (fun _ => post_ok))
       4)
  = [GetStatus]
  /\ Poll.main (py "Agent")
       (Poll.Env (Answer (JDict [(py "success", JBool true);
                                 (py "status", JDict [(py "filePath", JStr (py "a.log"));
                                                      (py "totalLines", JInt 3)])]))
                 10 (fun _ _ => Failed (py "down")) (fun _ => Answer (JList [])))
       4
     = Poll.Run [GetStatus; PostRegister (py "Agent")] (JInt 10)
         (Crashed AttributeError).
Proof.
  split.
  - refine (proj2 (proj2 (@startup_requires_ready (py "Agent") _ 4)) _).
    intros (fields & success & status & filePath & totalLines
            & Ha & Hs & Hts & Hst & Hf & Htf & Ht).
    cbn [Poll.status_answer api_get] in Ha. injection Ha as <-.
    vm_compute in Hst. injection Hst as <-. vm_compute in Hf. discriminate Hf.
  - refine (proj1 (proj2 (proj1 (proj2
              (@startup_requires_ready (py "Agent")
                 (Poll.Env (Answer (JDict [(py "success", JBool true);
                                           (py "status", JDict [(py "filePath", JStr (py "a.log"));
                                                                (py "totalLines", JInt 3)])]))
                           10 (fun _ _ => Failed (py "down"))
                           (fun _ => Answer (JList [])))
                 4)) _)) eq_refl).
    exists [(py "success", JBool true);
            (py "status", JDict [(py "filePath", JStr (py "a.log"));
                                 (py "totalLines", JInt 3)])],
           (JBool true),
           [(py "filePath", JStr (py "a.log")); (py "totalLines", JInt 3)],
           (JStr (py "a.log")), (JInt 3).
    repeat split.
Defined.

Lemma incomplete_status_crashes_witness :
  Poll.main (py "Agent")
    (Poll.Env (Answer (JDict [(py "success", JBool true);
                              (py "status", JDict [(py "filePath", JStr (py "a.log"))])]))
              10 (fun _ _ => Failed (py "down")) (fun _ => post_ok))
    4
  = Poll.Run [GetStatus] JNull (Crashed KeyError).
Proof.
  refine (proj1 (proj2 (@incomplete_status_crashes (py "Agent")
            (Poll.Env (Answer (JDict [(py "success", JBool true);
                                      (py "status", JDict [(py "filePath", JStr (py "a.log"))])]))
                      10 (fun _ _ => Failed (py "down")) (fun _ => post_ok))
            4 None Json.loads (fun _ => post_ok)
            [(py "success", JBool true);
             (py "status", JDict [(py "filePath", JStr (py "a.log"))])]
            (JBool true) eq_refl eq_refl eq_refl _))).
  right. exists [(py "filePath", JStr (py "a.log"))], (JStr (py "a.log")).
  repeat split.
Defined.

End StatusExamples.

(** ** Every streaming run *)

Section StreamingRuns.

Import Sse.

Variable loads : str -> decoded.
Variable post : nat -> reply.

Local Abbreviation conv := (conversation None (Exited 0)).
Local Abbreviation bye := (PostMessage FAREWELL None).

Lemma exited_not_running : Exited 0 <> Running.
Proof. discriminate. Qed.

Lemma exited_not_crash (e : exn) : Exited 0 <> Crashed e.
Proof. discriminate. Qed.

Lemma on_data_conv (answer : reply) (data : json) :
  conv (fst (on_data answer data)) (snd (on_data answer data)).
Proof.
  unfold on_data.
  destruct data as [| | | | | | fields]; try (apply conv_nil; discriminate).
  destruct (eq_str _ (py "user")) eqn:Hu; [| apply conv_nil; discriminate].
  assert (Hfrom : from_user (JDict fields) = true).
  { unfold from_user, subscript.
    destruct (lookup (py "from") fields); [exact Hu | discriminate Hu]. }
  destruct (subscript (JDict fields) (py "text")) as [text | e] eqn:Ht;
    [| apply conv_nil; discriminate].
  unfold handle_message, send_message.
  destruct text as [| | | | t | |]; try (now apply conv_lost).
  destruct (says_bye (lower t)) eqn:Hb;
    destruct (posted_cases answer) as [-> | ->]; cbn [fst snd].
  - now apply conv_bye with (t := t).
  - replace FAREWELL with (reply_text (JDict fields))
      by (unfold reply_text; now rewrite Ht, Hb).
    now apply conv_refused with (t := t).
  - apply conv_echo; auto. apply conv_nil. discriminate.
  - replace (py "Received: " ++ t) with (reply_text (JDict fields))
      by (unfold reply_text; now rewrite Ht, Hb).
    now apply conv_refused with (t := t).
Qed.

Lemma on_line_conv (line : str) (p : nat) :
  conv (fst (on_line loads post line p)) (snd (on_line loads post line p)).
Proof.
  unfold on_line. destruct (startswith line DATA_PREFIX);
    [| apply conv_nil; discriminate].
  destruct (loads (skipn 6 line));
    [apply on_data_conv | apply conv_nil; discriminate
     | apply conv_nil; discriminate].
Qed.

Lemma for_lines_conv (lines : list str) (p : nat) :
  conv (fst (for_lines loads post lines p))
       (snd (for_lines loads post lines p)).
Proof.
  revert p. induction lines as [| line lines IH]; intros p;
    [apply conv_nil; discriminate |].
  cbn [for_lines]. pose proof (on_line_conv line p) as H.
  destruct (on_line loads post line p) as [tr o]. cbn [fst snd] in H.
  destruct o; try exact H.
  specialize (IH (p + posts tr)%nat).
  destruct (for_lines loads post lines (p + posts tr)) as [tr' o'].
  cbn [fst snd] in *.
  eapply conv_app; [apply exited_not_running | exact H | exact IH].
Qed.

Lemma read_byte_conv (buffer : str) (b : Byte.byte) (p : nat) :
  conv (trace (read_byte loads post buffer b p))
       (ended (read_byte loads post buffer b p)).
Proof.
  unfold read_byte.
  destruct (endswith (buffer ++ decode b) TERMINATOR);
    [| apply conv_nil; discriminate].
  pose proof (for_lines_conv (split NL (strip (buffer ++ decode b))) p) as H.
  destruct (for_lines loads post _ p) as [tr o]. cbn [fst snd] in H.
  destruct o; exact H.
Qed.

Lemma read_bytes_conv (bytes : list Byte.byte) (buffer : str) (p : nat) :
  conv (trace (read_bytes loads post bytes buffer p))
       (ended (read_bytes loads post bytes buffer p)).
Proof.
  revert buffer p. induction bytes as [| b bytes IH]; intros buffer p;
    [apply conv_nil; discriminate |].
  cbn [read_bytes]. pose proof (read_byte_conv buffer b p) as H.
  destruct (ended (read_byte loads post buffer b p)) eqn:He;
    rewrite ?He; try exact H.
  cbn [Sse.after trace ended].
  eapply conv_app; [apply exited_not_running | exact H | apply IH].
Qed.


(** Where every post is answered with an object, the farewell ends the
    script. *)
Lemma on_data_accepted (answer : reply) (data : json) :
  accepted answer = true ->
  In bye (fst (on_data answer data)) ->
  snd (on_data answer data) = Exited 0.
Proof.
  intros Hacc. unfold on_data.
  destruct data as [| | | | | | fields]; try (intros []).
  destruct (eq_str _ (py "user")); [| intros []].
  destruct (subscript (JDict fields) (py "text")) as [text | e];
    [| intros []].
  unfold handle_message, send_message. rewrite (posted_accepted _ Hacc).
  destruct text as [| | | | t | |]; cbn [fst snd];
    try (intros [Hf | []]; discriminate Hf).
  destruct (says_bye (lower t)); cbn [fst snd]; [reflexivity |].
  intros [Hf | [Hf | []]]; [discriminate Hf |].
  now apply echo_not_farewell in Hf.
Qed.

Lemma for_lines_accepted (lines : list str) (p : nat) :
  (forall i, accepted (post i) = true) ->
  In bye (fst (for_lines loads post lines p)) ->
  snd (for_lines loads post lines p) = Exited 0.
Proof.
  intros Hacc. revert p.
  induction lines as [| line lines IH]; intros p; [intros [] |].
  cbn [for_lines].
  assert (Hl : In bye (fst (on_line loads post line p)) ->
               snd (on_line loads post line p) = Exited 0).
  { unfold on_line. destruct (startswith line DATA_PREFIX); [| intros []].
    destruct (loads (skipn 6 line)); try (intros []).
    now apply on_data_accepted. }
  destruct (on_line loads post line p) as [tr o]. cbn [fst snd] in Hl.
  destruct o; try exact Hl.
  specialize (IH (p + posts tr)%nat).
  destruct (for_lines loads post lines (p + posts tr)) as [tr' o'].
  cbn [fst snd] in *. intros Hin. apply in_app_or in Hin.
  destruct Hin as [Hin | Hin]; [| now apply IH].
  apply Hl in Hin. discriminate Hin.
Qed.

Lemma read_bytes_accepted (bytes : list Byte.byte) (buffer : str) (p : nat) :
  (forall i, accepted (post i) = true) ->
  In bye (trace (read_bytes loads post bytes buffer p)) ->
  ended (read_bytes loads post bytes buffer p) = Exited 0.
Proof.
  intros Hacc. revert buffer p.
  induction bytes as [| b bytes IH]; intros buffer p; [intros [] |].
  cbn [read_bytes].
  assert (Hb : In bye (trace (read_byte loads post buffer b p)) ->
               ended (read_byte loads post buffer b p) = Exited 0).
  { unfold read_byte.
    destruct (endswith (buffer ++ decode b) TERMINATOR); [| intros []].
    pose proof (@for_lines_accepted
                  (split NL (strip (buffer ++ decode b))) p Hacc) as H.
    destruct (for_lines loads post _ p) as [tr o]. cbn [fst snd] in H.
    destruct o; exact H. }
  destruct (ended (read_byte loads post buffer b p)) eqn:He;
    rewrite ?He; try exact Hb.
  cbn [Sse.after trace ended]. intros Hin. apply in_app_or in Hin.
  destruct Hin as [Hin | Hin]; [| now apply IH].
  apply Hb in Hin. discriminate Hin.
Qed.

(** X9. Whatever arrives on the stream and however [json.loads] decodes
    it, every value the listener dispatches is a dictionary whose [from]
    field is the string [user], and dispatching and answering is all the
    listener does: it posts no registration and makes no further
    request. *)
Theorem stream_dispatches_only_user_events
    (conn : list (list Byte.byte)) (buffer : str) (p : nat) :
  Forall (fun d => subscript d (py "from") = Ok (JStr (py "user")))
         (dispatched (trace (read_loop loads post conn buffer p)))
  /\ forallb is_reply_event (trace (read_loop loads post conn buffer p))
     = true.
Proof.
  rewrite read_loop_bytes.
  pose proof (read_bytes_conv (List.concat conn) buffer p) as H. split.
  - eapply Forall_impl; [| exact (conv_dispatched H)].
    intros d. apply from_user_spec.
  - exact (conv_quiet H).
Qed.

(** X10. Whatever arrives on the stream, the listener never sends more
    messages than it has dispatched events, and is at most one answer
    behind; unless it crashed, its posts are the answers to the dispatched
    events, one each and in the same order: the farewell for a terminating
    text, the echo otherwise. *)
Theorem stream_answers_each_event
    (conn : list (list Byte.byte)) (buffer : str) (p : nat) :
  let r := read_loop loads post conn buffer p in
  (List.length (sent (trace r)) <= List.length (dispatched (trace r))
                                <= S (List.length (sent (trace r))))%nat
  /\ ((forall e, ended r <> Crashed e) ->
      sent (trace r) = List.map reply_text (dispatched (trace r))).
Proof.
  intros r. unfold r. rewrite read_loop_bytes.
  pose proof (read_bytes_conv (List.concat conn) buffer p) as H. split.
  - exact (conv_sent_length H).
  - exact (conv_sent H).
Qed.

(** X11. Whatever arrives on the stream, a listener that has called
    [sys.exit(0)] has sent the farewell.  A farewell that is sent is the
    last thing the listener did, it was sent once, and the listener then
    called [sys.exit(0)], or crashed with [AttributeError] because the
    answer to that post was no object.  Where every post is answered with
    an object, the listener has called [sys.exit(0)] exactly when it has
    sent the farewell. *)
Theorem stream_farewell_ends_run
    (conn : list (list Byte.byte)) (buffer : str) (p : nat) :
  let r := read_loop loads post conn buffer p in
  (ended r = Exited 0 -> In bye (trace r))
  /\ (In bye (trace r) ->
      (ended r = Exited 0 \/ ended r = Crashed AttributeError)
      /\ exists tr, trace r = tr ++ [bye] /\ ~ In bye tr)
  /\ ((forall i, accepted (post i) = true) ->
      (ended r = Exited 0 <-> In bye (trace r))).
Proof.
  intros r. unfold r. rewrite read_loop_bytes.
  destruct (conv_farewell exited_not_crash
              (read_bytes_conv (List.concat conn) buffer p)) as [H1 H2].
  split; [exact H1 | split; [exact H2 |]].
  intros Hacc. split; [exact H1 |]. now apply read_bytes_accepted.
Qed.

End StreamingRuns.

Section StreamingRunExamples.

Import Sse.

Lemma stream_answers_each_event_witness :
  sent (trace (read_loop Json.loads (fun _ => post_ok)
                 [Json.wire_bytes "data: {'name':'Agent'}||data: {'from':'user',";
                  Json.wire_bytes "'text':'ping'}||data: {'from':'agent','text':'x'}||"]
                 [] 1))
  = [py "Received: ping"].
Proof.
  refine (proj2 (@stream_answers_each_event Json.loads (fun _ => post_ok)
            [Json.wire_bytes "data: {'name':'Agent'}||data: {'from':'user',";
             Json.wire_bytes "'text':'ping'}||data: {'from':'agent','text':'x'}||"]
            [] 1) _).
  intros e. vm_compute. discriminate.
Defined.

Lemma stream_farewell_ends_run_witness :
  let r := read_loop Json.loads (fun _ => post_ok)
             [Json.wire_bytes "data: {'from':'user','text':'ok, bye'}||data: {'from':'user','text':'more'}||"]
             [] 1 in
  (exists tr,
      trace r = tr ++ [PostMessage FAREWELL None]
      /\ ~ In (PostMessage FAREWELL None) tr)
  /\ (ended r = Exited 0 <-> In (PostMessage FAREWELL None) (trace r)).
Proof.
  intros r.
  destruct (@stream_farewell_ends_run Json.loads (fun _ => post_ok)
              [Json.wire_bytes "data: {'from':'user','text':'ok, bye'}||data: {'from':'user','text':'more'}||"]
              [] 1) as (_ & Hlast & Hiff).
  split.
  - apply Hlast. vm_compute. tauto.
  - apply Hiff. intros i. reflexivity.
Defined.

End StreamingRunExamples.

(** ** The stream, part by part *)

Section StreamParts.

Import Sse.

Variable loads : str -> decoded.
Variable post : nat -> reply.

Lemma read_bytes_app (a b : list Byte.byte) (buffer : str) (p : nat) :
  read_bytes loads post (a ++ b) buffer p =
    match ended (read_bytes loads post a buffer p) with
    | Running =>
        Sse.after (trace (read_bytes loads post a buffer p))
                  (read_bytes loads post b
                     (Sse.buffer (read_bytes loads post a buffer p))
                     (p + posts (trace (read_bytes loads post a buffer p))))
    | _ => read_bytes loads post a buffer p
    end.
Proof.
  revert buffer p. induction a as [| x a IH]; intros buffer p.
  - cbn. now rewrite sse_after_nil, Nat.add_0_r.
  - cbn [app read_bytes].
    destruct (ended (read_byte loads post buffer x p)) eqn:He;
      try (now rewrite He).
    rewrite IH. cbn [Sse.after ended trace Sse.buffer].
    destruct (ended (read_bytes loads post a
                       (Sse.buffer (read_byte loads post buffer x p))
                       (p + posts (trace (read_byte loads post buffer x p)))));
      try reflexivity.
    unfold Sse.after. cbn [trace Sse.buffer ended].
    now rewrite app_assoc, posts_app, Nat.add_assoc.
Qed.

(** X12. Input that arrives in two parts is handled as the first part
    followed, if the script is still running, by the second part read into
    the buffer the first part left; input that arrives after the script has
    exited or crashed has no effect. *)
Theorem stream_reading_composes
    (first second : list (list Byte.byte)) (buffer : str) (p : nat) :
  read_loop loads post (first ++ second) buffer p =
    match ended (read_loop loads post first buffer p) with
    | Running =>
        Sse.after (trace (read_loop loads post first buffer p))
                  (read_loop loads post second
                     (Sse.buffer (read_loop loads post first buffer p))
                     (p + posts (trace (read_loop loads post first buffer p))))
    | _ => read_loop loads post first buffer p
    end.
Proof.
  rewrite !read_loop_bytes, concat_app, read_bytes_app.
  now destruct (ended (read_bytes loads post (List.concat first) buffer p)).
Qed.

Lemma endswith_str_in (s t rest : str) :
  endswith s t = true -> str_in t (s ++ rest) = true.
Proof.
  rewrite endswith_spec, str_in_spec. intros [a ->].
  exists a, rest. now rewrite <- app_assoc.
Qed.

Lemma read_bytes_unterminated (bytes : list Byte.byte) (buffer : str)
    (p : nat) :
  str_in TERMINATOR (buffer ++ flat_map decode bytes) = false ->
  read_bytes loads post bytes buffer p
  = Sse.Run [] (buffer ++ flat_map decode bytes) Running.
Proof.
  revert buffer. induction bytes as [| b bytes IH]; intros buffer H.
  - cbn. now rewrite app_nil_r.
  - cbn [flat_map] in H |- *. rewrite app_assoc in H |- *.
    cbn [read_bytes]. unfold read_byte.
    destruct (endswith (buffer ++ decode b) TERMINATOR) eqn:Hend.
    + apply endswith_str_in with (rest := flat_map decode bytes) in Hend.
      congruence.
    + cbn [ended trace Sse.buffer posts]. rewrite Nat.add_0_r.
      rewrite (IH _ H). reflexivity.
Qed.

(** X13. Nothing is handled before a blank line arrives: if the decoded
    input contains no two consecutive line feeds, the listener dispatches
    and sends nothing, whatever data lines the input holds, and merely
    keeps the input in its buffer; when the connection then closes, that
    input is dropped. *)
Theorem unterminated_input_is_not_handled
    (conn : list (list Byte.byte)) (p : nat)
    (H : str_in TERMINATOR (flat_map decode (List.concat conn)) = false) :
  read_loop loads post conn [] p
  = Sse.Run [] (flat_map decode (List.concat conn)) Running.
Proof.
  rewrite read_loop_bytes. now apply read_bytes_unterminated.
Qed.

Lemma decode_chars (b : Byte.byte) :
  Forall (fun c => (c < 128)%N \/ c = 65533%N) (decode b).
Proof.
  unfold decode. destruct (Byte.to_N b <? 128)%N eqn:Hb.
  - constructor; [left; now apply N.ltb_lt | constructor].
  - constructor; [now right | constructor].
Qed.

Lemma read_byte_chars (buffer : str) (b : Byte.byte) (p : nat) :
  Forall (fun c => (c < 128)%N \/ c = 65533%N) buffer ->
  Forall (fun c => (c < 128)%N \/ c = 65533%N)
         (Sse.buffer (read_byte loads post buffer b p)).
Proof.
  intros H.
  assert (H' : Forall (fun c => (c < 128)%N \/ c = 65533%N)
                 (buffer ++ decode b)).
  { apply Forall_app. split; [exact H | apply decode_chars]. }
  unfold read_byte. destruct (endswith (buffer ++ decode b) TERMINATOR);
    [| exact H'].
  destruct (for_lines loads post _ p) as [tr o]. destruct o; cbn [Sse.buffer];
    (exact H' || constructor).
Qed.

Lemma read_bytes_chars (bytes : list Byte.byte) (buffer : str) (p : nat) :
  Forall (fun c => (c < 128)%N \/ c = 65533%N) buffer ->
  Forall (fun c => (c < 128)%N \/ c = 65533%N)
         (Sse.buffer (read_bytes loads post bytes buffer p)).
Proof.
  revert buffer p. induction bytes as [| b bytes IH]; intros buffer p H;
    [exact H |].
  cbn [read_bytes].
  destruct (ended (read_byte loads post buffer b p));
    try (now apply read_byte_chars).
  cbn [Sse.after Sse.buffer]. apply IH. now apply read_byte_chars.
Qed.

(** X14. Every byte read becomes exactly one character, and every
    character the listener ever holds in its buffer is an ASCII character
    or U+FFFD: a byte of a multi-byte UTF-8 sequence is decoded on its own
    and replaced, so text outside ASCII never reaches [json.loads]
    intact. *)
Theorem buffer_holds_ascii_or_replacement
    (conn : list (list Byte.byte)) (p : nat) :
  Forall (fun c => (c < 128)%N \/ c = 65533%N)
         (Sse.buffer (read_loop loads post conn [] p))
  /\ List.length (flat_map decode (List.concat conn))
     = List.length (List.concat conn).
Proof.
  split.
  - rewrite read_loop_bytes. apply read_bytes_chars. constructor.
  - generalize (List.concat conn). intros bytes.
    induction bytes as [| b bytes IH]; [reflexivity |].
    cbn [flat_map]. rewrite length_app, IH.
    destruct (decode_single b) as [c ->]. reflexivity.
Qed.

End StreamParts.

Section StreamPartsExamples.

Import Sse.

Lemma unterminated_input_is_not_handled_witness :
  read_loop Json.loads (fun _ => post_ok)
    [Json.wire_bytes "data: {'from':'user',"; Json.wire_bytes "'text':'bye'}|"]
    [] 1
  = Sse.Run [] (Json.wire "data: {'from':'user','text':'bye'}|") Running.
Proof.
  exact (@unterminated_input_is_not_handled Json.loads (fun _ => post_ok)
           [Json.wire_bytes "data: {'from':'user',";
            Json.wire_bytes "'text':'bye'}|"] 1 eq_refl).
Defined.

End StreamPartsExamples.

(** ** Events that crash the listener *)

Section StreamCrashes.

Import Sse.

Variable loads : str -> decoded.
Variable post : nat -> reply.

Lemma for_lines_app (before rest : list str) (p : nat) :
  snd (for_lines loads post before p) = Running ->
  for_lines loads post (before ++ rest) p
  = (fst (for_lines loads post before p)
     ++ fst (for_lines loads post rest
               (p + posts (fst (for_lines loads post before p)))),
     snd (for_lines loads post rest
            (p + posts (fst (for_lines loads post before p))))).
Proof.
  revert p. induction before as [| line before IH]; intros p;
    cbn [app for_lines].
  - intros _. cbn [fst posts]. rewrite Nat.add_0_r.
    now destruct (for_lines loads post rest p).
  - destruct (on_line loads post line p) as [tr o].
    destruct o; cbn [snd]; try discriminate.
    specialize (IH (p + posts tr)%nat).
    destruct (for_lines loads post before (p + posts tr)) as [tr' o'].
    cbn [fst snd] in *.
    intros Ho. rewrite (IH Ho), posts_app, Nat.add_assoc.
    destruct (for_lines loads post rest (p + posts tr + posts tr'))
      as [tr'' o''].
    cbn [fst snd]. now rewrite app_assoc.
Qed.

(** X15. A user event that decodes but is not well formed ends the
    listener with an exception, for the handler around [json.loads]
    catches decoding errors only.  Let a completed frame hold, after lines
    [before] that are handled without ending the script, a data line
    whose payload decodes to a dictionary from [user].  If the dictionary
    has no [text], the script ends with [KeyError] once [before] is
    handled; if its [text] is no string, the event is shown and the script
    ends with [AttributeError].  In both cases no answer is sent for the
    event, the rest of the frame and of the input is never handled, and
    the buffer is not emptied. *)
Theorem malformed_user_event_crashes
    (buffer line : str) (b : Byte.byte) (rest : list Byte.byte) (p : nat)
    (before after_ : list str) (fields : list (str * json))
    (Hend : endswith (buffer ++ decode b) TERMINATOR = true)
    (Hlines : split NL (strip (buffer ++ decode b)) = before ++ line :: after_)
    (Hbefore : snd (for_lines loads post before p) = Running)
    (Hdata : startswith line DATA_PREFIX = true)
    (Hloads : loads (skipn 6 line) = Decoded (JDict fields))
    (Hfrom : lookup (py "from") fields = Some (JStr (py "user"))) :
  (lookup (py "text") fields = None ->
   read_bytes loads post (b :: rest) buffer p
   = Sse.Run (fst (for_lines loads post before p)) (buffer ++ decode b)
       (Crashed KeyError))
  /\ (forall v,
        lookup (py "text") fields = Some v ->
        (forall t, v <> JStr t) ->
        read_bytes loads post (b :: rest) buffer p
        = Sse.Run (fst (for_lines loads post before p)
                   ++ [Dispatch (JDict fields)])
            (buffer ++ decode b) (Crashed AttributeError)).
Proof.
  set (q := (p + posts (fst (for_lines loads post before p)))%nat).
  assert (Hline : forall tr e,
            on_line loads post line q = (tr, Crashed e) ->
            read_bytes loads post (b :: rest) buffer p
            = Sse.Run (fst (for_lines loads post before p) ++ tr)
                (buffer ++ decode b) (Crashed e)).
  { intros tr e Hl. cbn [read_bytes]. unfold read_byte.
    rewrite Hend, Hlines, (@for_lines_app before _ p Hbefore).
    fold q. cbn [for_lines]. rewrite Hl. reflexivity. }
  assert (Hon : on_line loads post line q = on_data (post q) (JDict fields)).
  { unfold on_line. now rewrite Hdata, Hloads. }
  split.
  - intros Ht. rewrite <- (app_nil_r (fst _)). apply Hline.
    rewrite Hon. unfold on_data, subscript. rewrite Hfrom, Ht. reflexivity.
  - intros v Ht Hv. apply Hline.
    rewrite Hon. unfold on_data, subscript. rewrite Hfrom, Ht.
    cbn [eq_str]. change (str_eqb (py "user") (py "user")) with true.
    cbv iota. unfold handle_message.
    destruct v as [| | | | t | |]; try reflexivity. now contradiction (Hv t).
Qed.

End StreamCrashes.

Section StreamCrashExamples.

Import Sse.

Lemma malformed_user_event_crashes_witness :
  read_bytes Json.loads (fun _ => post_ok)
    (Json.wire_bytes "|data: {'from':'user','text':'late'}||")
    (Json.wire "data: {'from':'user','text':'hi'}|data: {'from':'user'}|") 1
  = Sse.Run
      [Dispatch (JDict [(py "from", JStr (py "user")); (py "text", JStr (py "hi"))]);
       PostMessage (py "Received: hi") None]
      (Json.wire "data: {'from':'user','text':'hi'}|data: {'from':'user'}||")
      (Crashed KeyError).
Proof.
  exact (proj1 (@malformed_user_event_crashes Json.loads (fun _ => post_ok)
           (Json.wire "data: {'from':'user','text':'hi'}|data: {'from':'user'}|")
           (Json.wire "data: {'from':'user'}")
           Byte.x0a
           (Json.wire_bytes "data: {'from':'user','text':'late'}||") 1
           [Json.wire "data: {'from':'user','text':'hi'}"] []
           [(py "from", JStr (py "user"))]
           eq_refl eq_refl eq_refl eq_refl eq_refl eq_refl) eq_refl).
Defined.

End StreamCrashExamples.

(** ** From frame to lines *)

Section FrameLines.

Lemma split_not_nil (sep : char) (s : str) : split sep s <> [].
Proof.
  destruct s as [| c s]; cbn [split]; [discriminate |].
  destruct (N.eqb c sep); [discriminate |].
  destruct (split sep s); discriminate.
Qed.

Lemma join_split (sep : char) (s : str) : join sep (split sep s) = s.
Proof.
  induction s as [| c s IH]; [reflexivity |].
  cbn [split]. destruct (N.eqb c sep) eqn:Hc.
  - apply N.eqb_eq in Hc. subst c.
    pose proof (split_not_nil sep s) as Hn.
    destruct (split sep s) as [| l ls]; [contradiction |].
    cbn [join app] in *. now rewrite IH.
  - pose proof (split_not_nil sep s) as Hn.
    destruct (split sep s) as [| l ls]; [contradiction |].
    destruct ls as [| l' ls]; cbn [join app] in *; now rewrite <- IH.
Qed.

Lemma split_no_sep (sep : char) (s : str) :
  Forall (fun l => ~ In sep l) (split sep s).
Proof.
  induction s as [| c s IH]; [repeat constructor; intros [] |].
  cbn [split]. destruct (N.eqb c sep) eqn:Hc.
  - constructor; [intros [] | exact IH].
  - destruct (split sep s) as [| l ls]; [repeat constructor |].
    + intros [-> | []]. now rewrite N.eqb_refl in Hc.
    + inversion IH as [| ? ? Hl Hls]; subst. constructor; [| exact Hls].
      intros [-> | Hin]; [now rewrite N.eqb_refl in Hc | now apply Hl].
Qed.

Lemma lstrip_spec (s : str) :
  exists a, s = a ++ lstrip s
            /\ Forall (fun c => isspace c = true) a
            /\ (forall c rest, lstrip s = c :: rest -> isspace c = false).
Proof.
  induction s as [| c s (a & Ha & Hsp & Hhd)].
  - exists []. repeat split; [constructor | discriminate].
  - cbn [lstrip]. destruct (isspace c) eqn:Hc.
    + exists (c :: a). cbn [app]. rewrite <- Ha.
      repeat split; [now constructor | exact Hhd].
    + exists []. repeat split; [constructor |].
      intros c' rest H. injection H as <- _. exact Hc.
Qed.

(** X16. Cutting a frame into lines loses nothing but the white space
    around it: [strip] removes only white space from the two ends and
    leaves none there, no line contains a line feed, and the lines joined
    by line feeds are the stripped frame again. *)
Theorem frame_lines_rejoin (frame : str) :
  join NL (split NL (strip frame)) = strip frame
  /\ Forall (fun line => ~ In NL line) (split NL (strip frame))
  /\ (exists a b, frame = a ++ strip frame ++ b
                  /\ Forall (fun c => isspace c = true) a
                  /\ Forall (fun c => isspace c = true) b)
  /\ (forall c rest, strip frame = c :: rest -> isspace c = false)
  /\ (forall c rest, strip frame = rest ++ [c] -> isspace c = false).
Proof.
  split; [apply join_split | split; [apply split_no_sep |]].
  destruct (lstrip_spec frame) as (a & Ha & Hsa & Hhd).
  destruct (lstrip_spec (rev (lstrip frame))) as (b & Hb & Hsb & Hlast).
  assert (Hl : lstrip frame = strip frame ++ rev b).
  { unfold strip, rstrip. rewrite <- rev_app_distr, <- Hb.
    now rewrite rev_involutive. }
  split; [| split].
  - exists a, (rev b). rewrite <- Hl. repeat split; auto.
    now apply Forall_rev.
  - intros c rest Hs. apply (Hhd c (rest ++ rev b)).
    now rewrite Hl, Hs.
  - intros c rest Hs. apply (Hlast c (rev rest)).
    unfold strip, rstrip in Hs.
    rewrite <- (rev_involutive (lstrip (rev (lstrip frame)))), Hs.
    now rewrite rev_app_distr.
Qed.

End FrameLines.

(** ** The streaming script as a whole *)

Section StreamingScript.

Import Sse.

Variable loads : str -> decoded.
Variable post : nat -> reply.


End StreamingScript.

Section StreamingScriptExamples.

Import Sse.


End StreamingScriptExamples.

(** ** Batches without user messages, and the termination test *)

Section MoreOnPolling.

Import Poll.

(** X18. Messages that are not from the user do not move the cursor: a
    cycle whose answer lists no user message dispatches nothing, sends
    nothing and leaves the cursor where it was, so the next fetch asks with
    the same [since]. *)
Theorem other_messages_leave_cursor
    (name : str) (fetch : nat -> json -> reply) (post : nat -> reply)
    (cycles k : nat) (last_ts : json) (p : nat) (msgs : list message)
    (Hfetch : fetch k last_ts = messages_answer msgs)
    (Hnone : Forall (fun m => is_user m = false) msgs) :
  while_true name fetch post (S cycles) k last_ts p
  = Poll.after (idle_cycle last_ts)
      (while_true name fetch post cycles (S k) last_ts p).
Proof.
  cbn [while_true]. rewrite Hfetch, poll_messages_answer.
  replace (filter is_user msgs) with (@nil message).
  - cbn [List.map for_msgs Poll.ended Poll.trace Poll.cursor posts].
    now rewrite app_nil_r, Nat.add_0_r.
  - symmetry. clear Hfetch.
    induction Hnone as [| m msgs Hm _ IH]; [reflexivity |].
    cbn [filter]. rewrite Hm. exact IH.
Qed.

Lemma other_messages_leave_cursor_witness :
  while_true (py "Agent")
    (fun _ _ => messages_answer [Message (py "agent") (py "Received: hi") 15])
    (fun _ => post_ok) 2 0 (JInt 10) 2
  = Poll.Run [Sleep 2; GetMessages (JInt 10); Sleep 2; GetMessages (JInt 10)]
      (JInt 10) Running.
Proof.
  refine (eq_trans (@other_messages_leave_cursor (py "Agent")
            (fun _ _ => messages_answer [Message (py "agent") (py "Received: hi") 15])
            (fun _ => post_ok)
            1 0 (JInt 10) 2 [Message (py "agent") (py "Received: hi") 15]
            eq_refl _) eq_refl).
  constructor; [reflexivity | constructor].
Defined.

(** X19. The first half of the termination test is redundant, and the
    test is loose: a lowered text passes it exactly when it contains
    [bye], so every text that contains a terminating text, whatever comes
    before and after, terminates as well. *)
Theorem bye_is_the_whole_test (t before after_ : str) :
  says_bye t = str_in (py "bye") t
  /\ (says_bye (lower t) = true ->
      says_bye (lower (before ++ t ++ after_)) = true).
Proof.
  assert (H : forall s, says_bye s = str_in (py "bye") s).
  { intros s. unfold says_bye.
    destruct (str_in (py "goodbye") s) eqn:Hg; [| reflexivity].
    apply str_in_spec in Hg. destruct Hg as (a & b & ->).
    symmetry. apply str_in_spec. exists (a ++ py "good"), b.
    now rewrite <- !app_assoc. }
  split; [apply H |].
  rewrite !H, !str_in_spec. intros (a & b & Hab).
  exists (lower before ++ a), (b ++ lower after_).
  unfold lower in *. rewrite !map_app, Hab, <- !app_assoc. reflexivity.
Qed.

Lemma bye_is_the_whole_test_witness :
  says_bye (lower (py "well, " ++ py "Bye" ++ py "zantium it is")) = true.
Proof.
  exact (proj2 (@bye_is_the_whole_test (py "Bye") (py "well, ")
                  (py "zantium it is")) eq_refl).
Defined.

End MoreOnPolling.

Section FrameLinesExamples.

Lemma frame_lines_rejoin_witness : isspace 100%N = false.
Proof.
  exact (proj1 (proj2 (proj2 (proj2
           (@frame_lines_rejoin (Json.wire " data: 1||"))))) 100%N
           (py "ata: 1") eq_refl).
Defined.

End FrameLinesExamples.
